(** * DeepSpeech native client: scorer and tensor helpers

  A shallow embedding of
    - [native_client/ctcdecode/scorer.cpp]  (class [Scorer])
    - [native_client/tfmodelstate.cc]       ([tensor_from_vector])
  together with the properties of these functions that the design
  document states.

  Conventions.
    - C++ [int]/[size_t] values are [Z] (or [nat] for loop counters and
      container sizes, which stay far below the machine bounds here).
    - A C++ [double] that is only stored, copied and serialised (the
      hyperparameters [alpha] and [beta]) is its IEEE-754 binary64 bit
      pattern, a [Z] below [2^64]; a [float] is its binary32 pattern.
    - A C++ [double] that is computed with (the language-model scores) is
      a primitive binary64 [float] of Rocq.
    - Bytes are [Init.Byte.byte]; multi-byte objects are little-endian.
    - A null pointer or an out-of-range access is [None].
    - A variable declared without an initialiser holds bytes that the
      program does not choose; they are a parameter. *)

From Stdlib Require Import ZArith String Ascii List Lia Bool.
From Stdlib Require Import PrimFloat SpecFloat.
From coqutil Require Import Byte Word.LittleEndianList.
From stdpp Require Import base option list pretty strings gmap.

Local Open Scope Z_scope.

(* ===================================================================== *)
(** * tfmodelstate.cc *)
(* ===================================================================== *)

Module TFModelState.
Section Tensor.

(** The element type ([float]) and the literal [0.f]. *)
Context {elt : Type} (zero : elt).

(** [Tensor ret(DT_FLOAT, shape)]: a flat buffer of
    [shape.num_elements()] cells whose contents are not initialised;
    [None] is a cell nobody has written yet. *)
Definition Tensor := list (option elt).

Definition allocate (num_elements : nat) : Tensor :=
  replicate num_elements None.

(** [ret_mapped(i) = v]; writing outside the buffer is undefined. *)
Definition store (ret : Tensor) (i : nat) (v : elt) : option Tensor :=
  if decide (i < length ret)%nat then Some (<[i := Some v]> ret) else None.

(** [for (i = 0; i < vec.size(); ++i) ret_mapped(i) = vec[i];]
    [n] counts the iterations that are left.  [i] is an [int] in the
    source and a natural number here; the two agree while the vector and
    the tensor have fewer than [2^31] elements, where [++i] cannot
    overflow. *)
Fixpoint copy_loop (vec : list elt) (n : nat) (i : nat) (ret : Tensor)
  : option (nat * Tensor) :=
  match n with
  | O => Some (i, ret)
  | S n' =>
      v ← vec !! i;
      ret' ← store ret i v;
      copy_loop vec n' (S i) ret'
  end.

(** [for (; i < shape.num_elements(); ++i) ret_mapped(i) = 0.f;] *)
Fixpoint fill_loop (n : nat) (i : nat) (ret : Tensor) : option Tensor :=
  match n with
  | O => Some ret
  | S n' =>
      ret' ← store ret i zero;
      fill_loop n' (S i) ret'
  end.

Definition tensor_from_vector (vec : list elt) (num_elements : nat)
  : option Tensor :=
  let ret := allocate num_elements in
  '(i, ret) ← copy_loop vec (length vec) 0%nat ret;
  fill_loop (num_elements - i) i ret.

End Tensor.
End TFModelState.

(* ===================================================================== *)
(** * IEEE-754 bit patterns and the conversions between [double] and [float] *)
(* ===================================================================== *)

Module IEEE.

(** A format is given by the widths of its fraction and exponent fields:
    [52, 11] for binary64 and [23, 8] for binary32. *)
Definition bias (ew : Z) : Z := 2 ^ (ew - 1) - 1.
Definition sign_field (mw ew : Z) (s : bool) : Z :=
  if s then Z.shiftl 1 (mw + ew) else 0.
Definition exponent_field (mw ew bits : Z) : Z :=
  Z.land (Z.shiftr bits mw) (Z.ones ew).
Definition fraction_field (mw bits : Z) : Z := Z.land bits (Z.ones mw).
Definition sign_of (mw ew bits : Z) : bool := Z.testbit bits (mw + ew).

Definition is_nan (mw ew bits : Z) : bool :=
  (exponent_field mw ew bits =? Z.ones ew) && negb (fraction_field mw bits =? 0).

(** The value a bit pattern stands for. *)
Definition decode (mw ew bits : Z) : spec_float :=
  let s := sign_of mw ew bits in
  let E := exponent_field mw ew bits in
  let M := fraction_field mw bits in
  if E =? 0 then
    if M =? 0 then S754_zero s
    else S754_finite s (Z.to_pos M) (1 - bias ew - mw)
  else if E =? Z.ones ew then
    if M =? 0 then S754_infinity s else S754_nan
  else S754_finite s (Z.to_pos (M + 2 ^ mw)) (E - bias ew - mw).

(** The bit pattern of a value that is canonical for the format. *)
Definition encode (mw ew : Z) (x : spec_float) : Z :=
  match x with
  | S754_zero s => sign_field mw ew s
  | S754_infinity s => Z.lor (sign_field mw ew s) (Z.shiftl (Z.ones ew) mw)
  | S754_nan => Z.lor (Z.shiftl (Z.ones ew) mw) (Z.shiftl 1 (mw - 1))
  | S754_finite s m e =>
      Z.lor (sign_field mw ew s)
        (if Z.pos m <? 2 ^ mw then Z.pos m
         else Z.lor (Z.shiftl (e + bias ew + mw) mw) (Z.pos m - 2 ^ mw))
  end.

(** Rounding to nearest, ties to even, into the format (the default
    rounding of a floating-point conversion). *)
Definition round (mw ew : Z) (x : spec_float) : spec_float :=
  match x with
  | S754_finite s m e => binary_round (mw + 1) (2 ^ (ew - 1)) s m e
  | _ => x
  end.

(** [(float)d]: a NaN keeps its sign and the upper fraction bits and is
    made quiet, every other value is rounded to binary32. *)
Definition double_to_float (d : Z) : Z :=
  if is_nan 52 11 d then
    Z.lor (sign_field 23 8 (sign_of 52 11 d))
      (Z.lor 0x7FC00000 (Z.shiftr (fraction_field 52 d) 29))
  else encode 23 8 (round 23 8 (decode 52 11 d)).

(** [(double)f]: exact. *)
Definition float_to_double (f : Z) : Z :=
  if is_nan 23 8 f then
    Z.lor (sign_field 52 11 (sign_of 23 8 f))
      (Z.lor 0x7FF8000000000000 (Z.shiftl (fraction_field 23 f) 29))
  else encode 52 11 (round 52 11 (decode 23 8 f)).

Definition b2z (s : bool) : Z := if s then 1 else 0.

(** A [double] whose value a [float] can hold: a 64-bit pattern that the
    conversion to [float] and back gives again. *)
Definition single_precision (d : Z) : Prop :=
  0 <= d < 2 ^ 64 /\ float_to_double (double_to_float d) = d.

End IEEE.


(* ===================================================================== *)
(** * ctcdecode/scorer.cpp: what the scorer is built on *)
(* ===================================================================== *)

(** ** The n-gram engine (KenLM), a black box

    [lm::ngram::State] and [lm::kUNK] come with the engine. *)
Class Engine := {
  State : Type;
  kUNK : Z;
}.

(** [lm::base::Model], as far as the scorer uses it.  [BaseScore in w] is
    [BaseScore(&in, w, &out)]: the score and the state written to [out]. *)
Record Model `{Engine} := {
  Order : nat;
  GetEndOfSearchOffset : Z;
  Index : string -> Z;
  EndSentence : Z;
  BeginSentenceWrite : State;
  NullContextWrite : State;
  BaseScore : State -> Z -> float * State;
}.

(** ** Constants of headers that are not part of these sources, and the
    build mode: [OOV_SCORE] (scorer.h), [NUM_FLT_LOGE] (decoder_utils.h),
    and whether [NDEBUG] is defined, which turns [assert] into a no-op. *)
Class Constants := {
  OOV_SCORE : float;
  NUM_FLT_LOGE : float;
  NDEBUG : bool;
}.

(** ** The automaton library (OpenFst): [FstType], [Write] and [Read];
    [Read] gives a null pointer when it cannot parse. *)
Class OpenFst := {
  FstType : Type;
  fst_Write : FstType -> list byte;
  fst_Read : list byte -> option FstType;
}.

(** ** The alphabet (alphabet.h), as far as the scorer uses it. *)
Record Alphabet := {
  GetSize : nat;
  GetSpaceLabel : Z;
  LabelsToString : list Z -> string;
}.

(** ** Prefix-tree nodes (path_trie.h): the label and the parent pointer. *)
#[warnings="-register-all"]
Inductive PathTrie : Type :=
  mkPathTrie { character : Z; parent : option PathTrie }.

(** Methods of [PathTrie] whose bodies are not part of these sources. *)
Class PathTrieOps := {
  (** [distance_to_codepoint_boundary(&first_byte)]: the returned distance
      and the byte stored through the pointer. *)
  distance_to_codepoint_boundary : PathTrie -> Z * byte;
  (** whether the byte a label stands for starts a codepoint *)
  byte_is_codepoint_boundary : Z -> bool;
}.

(** Modelled from the spec: [PathTrie::get_prev_word] is missing; the
    design document has it walk back to the start of the previous word,
    with the space label as delimiter, collecting the labels it passes, and
    return the node in front of the word (the delimiter or the root). *)
Fixpoint get_prev_word (node : PathTrie) (space_id : Z) : list Z * PathTrie :=
  if (character node =? space_id) || (character node =? -1) then ([], node)
  else
    match parent node with
    | Some p =>
        let '(output, stop) := get_prev_word p space_id in
        (output ++ [character node], stop)
    | None => ([character node], node)
    end.

(** Modelled from the spec: [PathTrie::get_prev_grapheme] is missing; the
    design document has it walk back to the start of the previous complete
    codepoint, collecting the labels it passes, and return the node that
    starts the codepoint. *)
Fixpoint get_prev_grapheme `{PathTrieOps} (node : PathTrie) : list Z * PathTrie :=
  if character node =? -1 then ([], node)
  else if byte_is_codepoint_boundary (character node) then ([character node], node)
  else
    match parent node with
    | Some p =>
        let '(output, stop) := get_prev_grapheme p in
        (output ++ [character node], stop)
    | None => ([character node], node)
    end.

(** ** Files and streams *)

(** What the scorer asks of the file system and of KenLM about a path:
    [access(path, R_OK) == 0], the bytes of the file,
    [lm::ngram::RecognizeBinary] and [lm::ngram::LoadVirtual]. *)
Class Files `{Engine} := {
  access_R_OK : string -> bool;
  file_bytes : string -> list byte;
  RecognizeBinary : string -> bool;
  LoadVirtual : string -> Model;
}.

(** What the locals of [load_trie] hold before they are read into:
    [int magic], [int version] and [double alpha, beta] are declared
    without an initialiser. *)
Class Uninitialised := {
  uninit_magic : Z;
  uninit_version : Z;
  uninit_alpha : Z;
  uninit_beta : Z;
}.

(** [fin.read(dst, n)], with [buf] the [n] bytes [dst] holds before: the
    bytes of [dst] afterwards and the rest of the stream.  The state of the
    stream is never tested by the callers.  A stream that ends early gives
    the bytes it still has, the rest of [dst] stays as it was, and nothing
    is left, so that every later read changes nothing. *)
Definition read (n : nat) (buf fin : list byte) : list byte * list byte :=
  (take n fin ++ drop (length fin) buf, drop n fin).

(** Object representations (little-endian, as on the supported hosts). *)
Definition bytes_of_int32 (v : Z) : list byte := le_split 4 v.
Definition int32_of_bytes (bs : list byte) : Z :=
  let u := le_combine bs in
  if u <? 2 ^ 31 then u else u - 2 ^ 32.
Definition bytes_of_double (bits : Z) : list byte := le_split 8 bits.
Definition double_of_bytes (bs : list byte) : Z := le_combine bs.
(** A [bool] is one byte, 0 or 1; any other byte read into a [bool] counts as
    [true] here. *)
Definition bytes_of_bool (b : bool) : list byte := le_split 1 (if b then 1 else 0).
Definition bool_of_bytes (bs : list byte) : bool := negb (le_combine bs =? 0).

(** [static const int32_t MAGIC = 'TRIE';] *)
Definition MAGIC : Z := 0x54524945.
Definition FILE_VERSION : Z := 6.

Definition endl : string := String (ascii_of_nat 10) EmptyString.

(* ===================================================================== *)
(** * ctcdecode/scorer.cpp: class [Scorer] *)
(* ===================================================================== *)

Section ScorerModel.

Context `{Engine} `{Constants} `{OpenFst} `{PathTrieOps} `{!Files}
        `{Uninitialised}.

(** Modelled from the spec: the class declaration (scorer.h) is missing;
    these are the data members the functions below read or write, with the
    types the design document gives them.  [alpha] and [beta] are the two
    8-byte floating hyperparameters ([double]s, which is also what
    [load_trie] reads them into and what [sizeof(alpha)] must be for the
    package layout), kept as bit patterns; [dictionary] and
    [language_model_] are owning pointers and may be null. *)
Record Scorer := mkScorer {
  alpha : Z;
  beta : Z;
  dictionary : option FstType;
  language_model_ : option Model;
  is_utf8_mode_ : bool;
  max_order_ : nat;
  SPACE_ID_ : Z;
  alphabet_ : Alphabet;
}.

Definition set_params (s : Scorer) (a b : Z) : Scorer :=
  mkScorer a b (dictionary s) (language_model_ s) (is_utf8_mode_ s)
    (max_order_ s) (SPACE_ID_ s) (alphabet_ s).
Definition set_dictionary (s : Scorer) (d : option FstType) : Scorer :=
  mkScorer (alpha s) (beta s) d (language_model_ s) (is_utf8_mode_ s)
    (max_order_ s) (SPACE_ID_ s) (alphabet_ s).
(** [language_model_.reset(m); max_order_ = language_model_->Order();] *)
Definition set_language_model (s : Scorer) (m : Model) : Scorer :=
  mkScorer (alpha s) (beta s) (dictionary s) (Some m) (is_utf8_mode_ s)
    (Order m) (SPACE_ID_ s) (alphabet_ s).
Definition set_is_utf8_mode (s : Scorer) (u : bool) : Scorer :=
  mkScorer (alpha s) (beta s) (dictionary s) (language_model_ s) u
    (max_order_ s) (SPACE_ID_ s) (alphabet_ s).

(** ** [Scorer::reset_params(float alpha, float beta)]

    The parameters are [float]s; the members they are assigned to are
    [double]s. *)
Definition reset_params (s : Scorer) (alpha beta : Z) : Scorer :=
  set_params s (IEEE.float_to_double alpha) (IEEE.float_to_double beta).

(** ** [Scorer::load_trie]

    The result is the returned [int], the text written to [std::cerr] and
    the scorer afterwards.  No read is followed by a test of the stream:
    once the magic number and the version have compared equal the function
    returns 0, whatever the stream still held.  The flag is read into the
    member [is_utf8_mode_]; the two local [double]s are passed to
    [reset_params], whose parameters are [float]s; [FstType::Read] is
    given what is left of the stream.  The function returns on every
    stream, the result is always [Some]. *)
Definition invalid_header : string :=
  "Error: Can't parse scorer file, invalid header. Try updating your scorer file."
  ++ endl.

Definition version_mismatch (version : Z) : string :=
  "Error: Scorer file version mismatch (" ++ pretty version
  ++ " instead of expected " ++ pretty FILE_VERSION ++ "). "
  ++ (if version <? FILE_VERSION then "Update your scorer file."
      else "Downgrade your scorer file or update your version of DeepSpeech.")
  ++ endl.

Definition load_trie (fin : list byte) (s : Scorer)
  : option (Z * string * Scorer) :=
  let '(buf, fin) := read 4 (bytes_of_int32 uninit_magic) fin in
  let magic := int32_of_bytes buf in
  if negb (magic =? MAGIC) then Some (1, invalid_header, s)
  else
    let '(buf, fin) := read 4 (bytes_of_int32 uninit_version) fin in
    let version := int32_of_bytes buf in
    if negb (version =? FILE_VERSION) then Some (1, version_mismatch version, s)
    else
      let '(buf, fin) := read 1 (bytes_of_bool (is_utf8_mode_ s)) fin in
      let s := set_is_utf8_mode s (bool_of_bytes buf) in
      let '(buf, fin) := read 8 (bytes_of_double uninit_alpha) fin in
      let alpha := double_of_bytes buf in
      let '(buf, fin) := read 8 (bytes_of_double uninit_beta) fin in
      let beta := double_of_bytes buf in
      let s := reset_params s (IEEE.double_to_float alpha) (IEEE.double_to_float beta) in
      let s := set_dictionary s (fst_Read fin) in
      Some (0, EmptyString, s).

(** ** [Scorer::load_lm] *)
Definition load_lm (s : Scorer) (lm_path : string)
  : option (Z * string * Scorer) :=
  if negb (access_R_OK lm_path) then Some (1, EmptyString, s)
  else if negb (RecognizeBinary lm_path) then Some (1, EmptyString, s)
  else
    let s := set_language_model s (LoadVirtual lm_path) in
    let package_size := Z.of_nat (length (file_bytes lm_path)) in
    let trie_offset := GetEndOfSearchOffset (LoadVirtual lm_path) in
    if package_size <=? trie_offset then Some (1, EmptyString, s)
    else load_trie (drop (Z.to_nat trie_offset) (file_bytes lm_path)) s.

(** ** [Scorer::save_dictionary]: the bytes written to [fout]. *)
Definition save_dictionary (s : Scorer) : option (list byte) :=
  d ← dictionary s;
  Some (bytes_of_int32 MAGIC ++ bytes_of_int32 FILE_VERSION
        ++ bytes_of_bool (is_utf8_mode_ s)
        ++ bytes_of_double (alpha s) ++ bytes_of_double (beta s)
        ++ fst_Write d).

(** The file at [path] afterwards, [file] being what was there before
    ([None]: no such file).  With [append_instead_of_overwrite] the stream
    is opened [in|out|binary|ate]: an existing file is kept and written to
    at its end, a missing one is not created.  Otherwise it is opened
    [out|binary], which creates or empties the file. *)
Definition save_dictionary_file (s : Scorer) (file : option (list byte))
    (append_instead_of_overwrite : bool) : option (option (list byte)) :=
  written ← save_dictionary s;
  Some (if append_instead_of_overwrite
        then (fun old => old ++ written) <$> file
        else Some written).

(** ** [Scorer::is_scoring_boundary] *)

(** A call either returns or is stopped by a failed [assert]. *)
Inductive outcome (A : Type) : Type :=
  | Returned (a : A)
  | Aborted.
#[global] Arguments Returned {A} a.
#[global] Arguments Aborted {A}.

(** The chain of tests on [first_byte]; [None] is the final [else]. *)
Definition needed_bytes (first_byte : byte) : option Z :=
  let first_byte := byte.unsigned first_byte in
  if Z.shiftr first_byte 3 =? 0x1E then Some 4
  else if Z.shiftr first_byte 4 =? 0x0E then Some 3
  else if Z.shiftr first_byte 5 =? 0x06 then Some 2
  else if Z.shiftr first_byte 7 =? 0x00 then Some 1
  else None.

(** [new_label] is a [size_t]; [SPACE_ID_] is converted to it for the
    comparison. *)
Definition is_scoring_boundary (s : Scorer) (prefix : PathTrie) (new_label : Z)
  : outcome bool :=
  if is_utf8_mode_ s then
    if character prefix =? -1 then Returned false
    else
      let '(distance_to_boundary, first_byte) :=
        distance_to_codepoint_boundary prefix in
      match needed_bytes first_byte with
      | Some needed_bytes => Returned (distance_to_boundary =? needed_bytes)
      | None => if NDEBUG then Returned false else Aborted
      end
  else Returned (new_label =? SPACE_ID_ s mod 2 ^ 64).

(** ** [Scorer::get_log_cond_prob] *)

(** The [for] loop over the words either leaves the function through the
    [return] inside it or falls through with [cond_prob] and the state
    [in_state] points to ([BaseScore] fills [*out_state] and the two
    pointers are swapped, so the next step reads what this one wrote). *)
Inductive loop_exit : Type :=
  | Return (v : float)
  | FallThrough (cond_prob : float) (in_state : State).

Fixpoint score_words (lm : Model) (words : list string)
    (in_state : State) (cond_prob : float) : loop_exit :=
  match words with
  | [] => FallThrough cond_prob in_state
  | w :: rest =>
      let word_index := Index lm w in
      if word_index =? kUNK then Return OOV_SCORE
      else
        let '(cond_prob, out_state) := BaseScore lm in_state word_index in
        score_words lm rest out_state cond_prob
  end.

(** The overload on an iterator range; [words] are the elements of
    [[begin, end)]. *)
Definition get_log_cond_prob (s : Scorer) (words : list string) (bos eos : bool)
  : option float :=
  lm ← language_model_ s;
  let in_state := if bos then BeginSentenceWrite lm else NullContextWrite lm in
  match score_words lm words in_state 0%float with
  | Return v => Some v
  | FallThrough cond_prob in_state =>
      let cond_prob :=
        if eos then fst (BaseScore lm in_state (EndSentence lm)) else cond_prob in
      Some (cond_prob / NUM_FLT_LOGE)%float
  end.

(** ** [Scorer::get_sent_log_prob] *)

(** The elements of [[words.begin() + from, words.begin() + to)]; forming
    an iterator outside the vector, or a range that runs backwards, is
    undefined. *)
Definition range (words : list string) (from to : Z) : option (list string) :=
  if (0 <=? from) && (from <=? to) && (to <=? Z.of_nat (length words))
  then Some (take (Z.to_nat (to - from)) (drop (Z.to_nat from) words))
  else None.

(** The [for] loop; [fuel] bounds the number of iterations. *)
Fixpoint sent_loop (s : Scorer) (words : list string) (fuel : nat)
    (win_start win_end : Z) (score : float) : option float :=
  let sent_len := Z.of_nat (length words) in
  if win_end <=? sent_len + 1 then
    match fuel with
    | O => None
    | S fuel =>
        let win_size := win_end - win_start in
        let bos := win_size <? Z.of_nat (max_order_ s) in
        let eos := win_end =? sent_len + 1 in
        window ← range words win_start (if eos then win_end - 1 else win_end);
        p ← get_log_cond_prob s window bos eos;
        let score := (score + p)%float in
        let win_start :=
          if win_size =? Z.of_nat (max_order_ s) then win_start + 1 else win_start in
        sent_loop s words fuel win_start (win_end + 1) score
    end
  else Some score.

Definition get_sent_log_prob (s : Scorer) (words : list string) : option float :=
  score ← sent_loop s words (S (length words)) 0 1 0%float;
  Some (score / NUM_FLT_LOGE)%float.

(** ** [Scorer::make_ngram] *)

(** The [for] loop; [n] is [max_order_ - order], and [ngram] grows at its
    end. *)
Fixpoint ngram_loop (s : Scorer) (n : nat) (current_node : option PathTrie)
    (ngram : list string) : list string :=
  match n with
  | O => ngram
  | S n =>
      match current_node with
      | None => ngram
      | Some node =>
          if character node =? -1 then ngram
          else
            let '(prefix_vec, new_node) :=
              if is_utf8_mode_ s then get_prev_grapheme node
              else get_prev_word node (SPACE_ID_ s) in
            let word := LabelsToString (alphabet_ s) prefix_vec in
            ngram_loop s n (parent new_node) (ngram ++ [word])
      end
  end.

Definition make_ngram (s : Scorer) (prefix : option PathTrie) : list string :=
  reverse (ngram_loop s (max_order_ s) prefix []).

End ScorerModel.

(* ===================================================================== *)
(** * What the design document says, in its own words *)
(* ===================================================================== *)

(** The leading-byte classes of the document: "4 bytes if the top 5 bits
    equal 11110, 3 bytes if top 4 bits equal 1110, 2 bytes if top 3 bits
    equal 110, 1 byte if top bit is 0".  [top_bits_are v 7 p] reads the bits
    of [v] from bit 7 downwards and compares them with [p]. *)
Fixpoint top_bits_are (v : Z) (i : Z) (pattern : list bool) : bool :=
  match pattern with
  | [] => true
  | p :: pattern => Bool.eqb (Z.testbit v i) p && top_bits_are v (i - 1) pattern
  end.

Definition expected_byte_count (b : byte) : option Z :=
  let v := byte.unsigned b in
  if top_bits_are v 7 [true; true; true; true; false] then Some 4
  else if top_bits_are v 7 [true; true; true; false] then Some 3
  else if top_bits_are v 7 [true; true; false] then Some 2
  else if top_bits_are v 7 [false] then Some 1
  else None.

(** "Summing successive base_score calls through a begin-of-sentence
    state": the sum of the scores of all steps, the state threaded from one
    step to the next, with the end-of-sentence step when [eos]. *)
Fixpoint sum_base_scores `{Engine} (lm : Model) (indices : list Z)
    (st : State) (acc : float) : float * State :=
  match indices with
  | [] => (acc, st)
  | i :: rest =>
      let '(p, st') := BaseScore lm st i in
      sum_base_scores lm rest st' (acc + p)%float
  end.

Definition summed_score `{Engine} (lm : Model) (words : list string)
    (bos eos : bool) : float :=
  let st := if bos then BeginSentenceWrite lm else NullContextWrite lm in
  let indices := (Index lm <$> words) ++ (if eos then [EndSentence lm] else []) in
  fst (sum_base_scores lm indices st 0%float).

(** The score of the last step of such a run, and the state it ends in
    (the initial value when there is no step). *)
Fixpoint last_step `{Engine} (lm : Model) (indices : list Z)
    (st : State) (cond_prob : float) : float * State :=
  match indices with
  | [] => (cond_prob, st)
  | i :: rest =>
      let '(p, st') := BaseScore lm st i in
      last_step lm rest st' p
  end.

(** The five load-time failures of the document. *)
Inductive load_error : Type :=
  | InputUnreadable
  | FormatUnrecognized
  | TruncatedArtifact
  | BadMagic
  | VersionMismatch.

(** What follows the LM section in the file at a path, and the two
    numbers [load_trie] compares there: the [int]s made of the first four
    bytes and of the next four.  Where the file ends inside one of them,
    the [int] keeps the bytes the variable held before. *)
Definition trie_section `{Engine} `{!Files} (lm_path : string) : list byte :=
  drop (Z.to_nat (GetEndOfSearchOffset (LoadVirtual lm_path))) (file_bytes lm_path).

Definition magic_field `{Engine} `{!Files} `{Uninitialised} (lm_path : string) : Z :=
  int32_of_bytes (read 4 (bytes_of_int32 uninit_magic) (trie_section lm_path)).1.

Definition version_field `{Engine} `{!Files} `{Uninitialised} (lm_path : string) : Z :=
  let fin := (read 4 (bytes_of_int32 uninit_magic) (trie_section lm_path)).2 in
  int32_of_bytes (read 4 (bytes_of_int32 uninit_version) fin).1.

(** When a path is in one of the five: the file cannot be read; KenLM does
    not recognise it; it ends at or before the end of the LM section; the
    number that follows the LM section is not the magic number; the magic
    number is followed by another version than the supported one. *)
Inductive fails_with `{Engine} `{!Files} `{Uninitialised} (lm_path : string)
  : load_error -> Prop :=
  | fails_unreadable :
      access_R_OK lm_path = false ->
      fails_with lm_path InputUnreadable
  | fails_unrecognized :
      access_R_OK lm_path = true ->
      RecognizeBinary lm_path = false ->
      fails_with lm_path FormatUnrecognized
  | fails_truncated :
      access_R_OK lm_path = true ->
      RecognizeBinary lm_path = true ->
      Z.of_nat (length (file_bytes lm_path))
        <= GetEndOfSearchOffset (LoadVirtual lm_path) ->
      fails_with lm_path TruncatedArtifact
  | fails_bad_magic :
      access_R_OK lm_path = true ->
      RecognizeBinary lm_path = true ->
      GetEndOfSearchOffset (LoadVirtual lm_path)
        < Z.of_nat (length (file_bytes lm_path)) ->
      magic_field lm_path <> MAGIC ->
      fails_with lm_path BadMagic
  | fails_version :
      access_R_OK lm_path = true ->
      RecognizeBinary lm_path = true ->
      GetEndOfSearchOffset (LoadVirtual lm_path)
        < Z.of_nat (length (file_bytes lm_path)) ->
      magic_field lm_path = MAGIC ->
      version_field lm_path <> FILE_VERSION ->
      fails_with lm_path VersionMismatch.

(** The nodes and labels of a path, from a node back to the end of its
    parent chain. *)
Fixpoint depth (node : PathTrie) : nat :=
  match parent node with
  | Some p => S (depth p)
  | None => 0%nat
  end.

Fixpoint path_labels (node : PathTrie) : list Z :=
  character node ::
  match parent node with
  | Some p => path_labels p
  | None => []
  end.

(** What a step back collects and where it stops: the node returned is
    the start node or one of its ancestors, and every label collected is
    the label of a node of the path and is not the label of the root. *)
Definition step_ok (node : PathTrie) (output : list Z) (stop : PathTrie) : Prop :=
  (depth stop <= depth node)%nat
  /\ (forall c, c ∈ path_labels stop -> c ∈ path_labels node)
  /\ (forall c, c ∈ output -> c <> -1 /\ c ∈ path_labels node).

(** The units of labels a walk of at most [n] steps collects, newest
    first: [ngram_loop] without the conversion to strings. *)
Fixpoint walked_units `{Engine} `{OpenFst} `{PathTrieOps} (s : Scorer) (n : nat)
    (current_node : option PathTrie) : list (list Z) :=
  match n with
  | O => []
  | S n =>
      match current_node with
      | None => []
      | Some node =>
          if character node =? -1 then []
          else
            let '(prefix_vec, new_node) :=
              if is_utf8_mode_ s then get_prev_grapheme node
              else get_prev_word node (SPACE_ID_ s) in
            prefix_vec :: walked_units s n (parent new_node)
      end
  end.

(** All the history a path holds: the walk that is not cut by an order. *)
Definition history `{Engine} `{OpenFst} `{PathTrieOps} (s : Scorer)
    (prefix : option PathTrie) : list (list Z) :=
  walked_units s (S (from_option depth 0%nat prefix)) prefix.

(* ===================================================================== *)
(** * A small concrete instance

    A bigram model over the vocabulary {cat, dog} with a hand-written
    score table, byte labels, and a handful of files. *)
(* ===================================================================== *)

Module Toy.

(** The state of a bigram model is the previous word. *)
Definition engine : Engine := {| State := Z; kUNK := 0 |}.

Definition index (w : string) : Z :=
  if String.eqb w "<s>" then 1
  else if String.eqb w "</s>" then 2
  else if String.eqb w "cat" then 3
  else if String.eqb w "dog" then 4
  else 0.

(** log10 p(word | previous):
      p(cat | <s>) = 10^-1, p(dog | cat) = 10^-2, p(</s> | dog) = 10^-4,
    and 10^-8 for every other pair. *)
Definition base_score (previous word : Z) : float * Z :=
  (if (previous =? 1) && (word =? 3) then (-1)%float
   else if (previous =? 3) && (word =? 4) then (-2)%float
   else if (previous =? 4) && (word =? 2) then (-4)%float
   else (-8)%float,
   word).

Definition model : @Model engine :=
  {| Order := 2;
     GetEndOfSearchOffset := 16;
     Index := index;
     EndSentence := 2;
     BeginSentenceWrite := 1 : @State engine;
     NullContextWrite := 0 : @State engine;
     BaseScore := base_score |}.

(** [NUM_FLT_LOGE] is the [float] nearest to 0.4342944819. *)
Definition release : Constants :=
  {| OOV_SCORE := (-1000)%float; NUM_FLT_LOGE := 0x1.bcb7b2p-2%float; NDEBUG := true |}.
Definition debug : Constants :=
  {| OOV_SCORE := (-1000)%float; NUM_FLT_LOGE := 0x1.bcb7b2p-2%float; NDEBUG := false |}.

(** The four locals hold what an earlier call left on the stack. *)
Definition stack : Uninitialised :=
  {| uninit_magic := 0x0BADF00D; uninit_version := 6;
     uninit_alpha := 0x3FB999999999999A; uninit_beta := 0 |}.

(** An automaton is kept as the bytes it is stored as. *)
Definition openfst : OpenFst :=
  {| FstType := list byte; fst_Write := id; fst_Read := Some |}.

(** Labels are byte values; a byte starts a codepoint unless it has the
    form 10xxxxxx. *)
Definition is_boundary (c : Z) : bool := negb (Z.land c 0xC0 =? 0x80).

Fixpoint distance (node : PathTrie) : Z * byte :=
  if is_boundary (character node) then (1, byte.of_Z (character node))
  else
    match parent node with
    | Some p => let '(d, b) := distance p in (1 + d, b)
    | None => (0, Byte.x00)
    end.

Definition pathtrie : PathTrieOps :=
  {| distance_to_codepoint_boundary := distance;
     byte_is_codepoint_boundary := is_boundary |}.

Definition root : PathTrie := mkPathTrie (-1) None.

(** The node reached from the root along [labels]. *)
Definition path (labels : list Z) : PathTrie :=
  fold_left (fun node c => mkPathTrie c (Some node)) labels root.

Definition ascii_labels (w : string) : list Z :=
  (fun c => Z.of_nat (nat_of_ascii c)) <$> list_ascii_of_string w.

Definition alphabet : Alphabet :=
  {| GetSize := 256;
     GetSpaceLabel := 32;
     LabelsToString := fun labels =>
       string_of_list_ascii ((fun l => ascii_of_nat (Z.to_nat l)) <$> labels) |}.

(** 0.5 and 0.25 are [float] values, 0.1 is not. *)
Definition scorer (utf8 : bool) : @Scorer engine openfst :=
  {| alpha := 0x3FE0000000000000;
     beta := 0x3FD0000000000000;
     dictionary := Some ([Byte.x01; Byte.x02; Byte.x03] : @FstType openfst);
     language_model_ := Some model;
     is_utf8_mode_ := utf8;
     max_order_ := 2;
     SPACE_ID_ := 32;
     alphabet_ := alphabet |}.

Definition scorer_tenth : @Scorer engine openfst :=
  @set_params engine openfst (scorer false) 0x3FB999999999999A 0x3FB999999999999A.

Definition blank : @Scorer engine openfst :=
  {| alpha := 0; beta := 0; dictionary := None; language_model_ := None;
     is_utf8_mode_ := true; max_order_ := 0; SPACE_ID_ := 0;
     alphabet_ := alphabet |}.

(** Files: sixteen bytes stand for the LM binary. *)
Definition lm_binary : list byte := replicate 16 Byte.x2a.

Definition package (s : @Scorer engine openfst) : list byte :=
  default [] (@save_dictionary engine openfst s).

Definition files_bytes (p : string) : list byte :=
  if String.eqb p "lm.binary" then lm_binary
  else if String.eqb p "badmagic.scorer" then
    lm_binary ++ bytes_of_int32 0x45495254 ++ bytes_of_int32 6
  else if String.eqb p "old.scorer" then
    lm_binary ++ bytes_of_int32 MAGIC ++ bytes_of_int32 5
  else if String.eqb p "new.scorer" then
    lm_binary ++ bytes_of_int32 MAGIC ++ bytes_of_int32 7
  else if String.eqb p "good.scorer" then lm_binary ++ package (scorer false)
  else [].

Definition files : @Files engine :=
  {| access_R_OK := fun p => negb (String.eqb p "missing.scorer");
     file_bytes := files_bytes;
     RecognizeBinary := fun p => negb (String.eqb p "model.arpa");
     LoadVirtual := fun _ => model |}.

Definition failing_path (e : load_error) : string :=
  match e with
  | InputUnreadable => "missing.scorer"
  | FormatUnrecognized => "model.arpa"
  | TruncatedArtifact => "lm.binary"
  | BadMagic => "badmagic.scorer"
  | VersionMismatch => "old.scorer"
  end.

End Toy.

(* ===================================================================== *)
(** * tfmodelstate.cc: reading tensors back, and the two calls of the
    session *)
(* ===================================================================== *)

Module TFInference.
Import TFModelState.
Section Inference.

Context {elt : Type} (zero : elt).

(** [tensor_mapped(i)] as a value: reading outside the buffer, or a cell
    nobody has written, is undefined. *)
Definition fetch (tensor : @Tensor elt) (i : nat) : option elt :=
  mjoin (tensor !! i).

(** [for (int i = 0; i < num_elements; ++i) vec.push_back(tensor_mapped(i));]
    [n] counts the iterations that are left. *)
Fixpoint push_back_loop (tensor : @Tensor elt) (n : nat) (i : nat)
    (vec : list elt) : option (list elt) :=
  match n with
  | O => Some vec
  | S n' =>
      v ← fetch tensor i;
      push_back_loop tensor n' (S i) (vec ++ [v])
  end.

(** A size stored in an [int]: the value modulo [2^32], in the range of
    [int]. *)
Definition to_int (size : Z) : Z :=
  let r := size mod 2 ^ 32 in
  if r <? 2 ^ 31 then r else r - 2 ^ 32.

(** [copy_tensor_to_vector(tensor, vec, num_elements = -1)]: the vector
    afterwards.  [num_elements] is an [int], and so is what the size of the
    tensor is stored in; a negative [num_elements] other than -1 leaves no
    iteration to run. *)
Definition copy_tensor_to_vector (tensor : @Tensor elt) (vec : list elt)
    (num_elements : Z) : option (list elt) :=
  let num_elements :=
    if num_elements =? -1 then to_int (Z.of_nat (length tensor))
    else num_elements in
  push_back_loop tensor (Z.to_nat num_elements) 0%nat vec.

(** The members of [ModelState] (modelstate.h) that [infer] and
    [compute_mfcc] read; [alphabet_size] is [alphabet_->GetSize()]. *)
Record ModelState := {
  n_steps_ : nat;
  n_context_ : nat;
  n_features_ : nat;
  state_size_ : nat;
  audio_win_len_ : nat;
  alphabet_size : nat;
}.

(** TensorFlow, a black box: a [Status], what is fed under a name, and
    [Session::Run(feeds, fetches, {}, &outputs)]. *)
Record Status := { ok : bool; to_text : string }.

Inductive Feed : Type :=
  | FloatTensor (t : @Tensor elt)
  | IntTensor (t : list Z).

Class Session := {
  BATCH_SIZE : nat;
  Run : list (string * Feed) -> list string -> Status * list (@Tensor elt);
}.

Context `{Session} `{Constants}.

Definition session_error (status : Status) : string :=
  "Error running session: " ++ to_text status ++ endl.

(** ** [TFModelState::infer]

    The result is the text written to [std::cerr] and the three output
    vectors afterwards.  [n_frames] is stored in a tensor of [int]s, and
    the number of logits to copy is passed as an [int]. *)
Definition infer (m : ModelState) (mfcc : list elt) (n_frames : nat)
    (previous_state_c previous_state_h : list elt)
    (logits_output state_c_output state_h_output : list elt)
  : option (string * (list elt * list elt * list elt)) :=
  let num_classes := (alphabet_size m + 1)%nat in
  input ← tensor_from_vector zero mfcc
             (BATCH_SIZE * n_steps_ m * (2 * n_context_ m + 1) * n_features_ m);
  previous_state_c_t ← tensor_from_vector zero previous_state_c
                          (BATCH_SIZE * state_size_ m);
  previous_state_h_t ← tensor_from_vector zero previous_state_h
                          (BATCH_SIZE * state_size_ m);
  let input_lengths := [to_int (Z.of_nat n_frames)] in
  let '(status, outputs) :=
    Run [("input_node", FloatTensor input);
         ("input_lengths", IntTensor input_lengths);
         ("previous_state_c", FloatTensor previous_state_c_t);
         ("previous_state_h", FloatTensor previous_state_h_t)]
        ["logits"; "new_state_c"; "new_state_h"] in
  if negb (ok status) then
    Some (session_error status, (logits_output, state_c_output, state_h_output))
  else
    out ← outputs !! 0%nat;
    logits_output ← copy_tensor_to_vector out logits_output
                       (to_int (Z.of_nat (n_frames * BATCH_SIZE * num_classes)));
    out ← outputs !! 1%nat;
    state_c_output ← copy_tensor_to_vector out [] (-1);
    out ← outputs !! 2%nat;
    state_h_output ← copy_tensor_to_vector out [] (-1);
    Some (EmptyString, (logits_output, state_c_output, state_h_output)).

(** What [infer] feeds the session when its three inputs fit: each of
    them followed by zeros up to the size the model gives its tensor. *)
Definition infer_feeds (m : ModelState) (mfcc : list elt) (n_frames : nat)
    (previous_state_c previous_state_h : list elt) : list (string * Feed) :=
  let padded vec n := Some <$> (vec ++ replicate (n - length vec) zero) in
  [("input_node",
    FloatTensor (padded mfcc
      (BATCH_SIZE * n_steps_ m * (2 * n_context_ m + 1) * n_features_ m)%nat));
   ("input_lengths", IntTensor [to_int (Z.of_nat n_frames)]);
   ("previous_state_c",
    FloatTensor (padded previous_state_c (BATCH_SIZE * state_size_ m)%nat));
   ("previous_state_h",
    FloatTensor (padded previous_state_h (BATCH_SIZE * state_size_ m)%nat))].

(** ** [TFModelState::compute_mfcc]

    [assert(outputs[0].shape().num_elements() / n_features_ == n_windows)]
    with [n_windows = 1] is checked unless [NDEBUG] is defined; the
    division is an integer division, and undefined by zero. *)
Definition compute_mfcc (m : ModelState) (samples : list elt)
    (mfcc_output : list elt) : option (outcome (string * list elt)) :=
  input ← tensor_from_vector zero samples (audio_win_len_ m);
  let '(status, outputs) := Run [("input_samples", FloatTensor input)] ["mfccs"] in
  if negb (ok status) then Some (Returned (session_error status, mfcc_output))
  else
    let n_windows := 1%nat in
    checked ←
      (if NDEBUG then Some true
       else
         out ← outputs !! 0%nat;
         if decide (n_features_ m = 0%nat) then None
         else Some (bool_decide (length out / n_features_ m = n_windows)%nat));
    if negb checked then Some Aborted
    else
      out ← outputs !! 0%nat;
      mfcc_output ← copy_tensor_to_vector out mfcc_output (-1);
      Some (Returned (EmptyString, mfcc_output)).

End Inference.
End TFInference.

(** A session over integers for trying the calls out: it answers every
    run with the same three tensors, or fails when it is fed no input. *)
Module ToySession.

Definition outputs : list (@TFModelState.Tensor Z) :=
  [[Some 1; Some 2; Some 3; Some 4; Some 5; Some 6]; [Some 7; Some 8]; [Some 9]].

Definition session : @TFInference.Session Z :=
  {| TFInference.BATCH_SIZE := 1;
     TFInference.Run := fun feeds fetches =>
       ({| TFInference.ok := true; TFInference.to_text := "OK" |}, outputs) |}.

Definition broken : @TFInference.Session Z :=
  {| TFInference.BATCH_SIZE := 1;
     TFInference.Run := fun feeds fetches =>
       ({| TFInference.ok := false; TFInference.to_text := "Cancelled" |}, []) |}.

Definition model : TFInference.ModelState :=
  {| TFInference.n_steps_ := 2;
     TFInference.n_context_ := 1;
     TFInference.n_features_ := 4;
     TFInference.state_size_ := 2;
     TFInference.audio_win_len_ := 3;
     TFInference.alphabet_size := 2 |}.

End ToySession.

(* ===================================================================== *)
(** * ctcdecode/scorer.cpp: the alphabet, the character map and the
    dictionary *)
(* ===================================================================== *)

(** Methods of [Alphabet] (alphabet.h) used here besides those above:
    [StringFromLabel], and [init], which reads a configuration file into
    the alphabet and returns an error code. *)
Class AlphabetOps := {
  StringFromLabel : Alphabet -> Z -> string;
  Alphabet_init : Alphabet -> string -> Z * Alphabet;
}.

(** The reserved words of scorer.h. *)
Class Tokens := {
  START_TOKEN : string;
  UNK_TOKEN : string;
  END_TOKEN : string;
}.

(** What [fill_dictionary] uses to build an automaton: the mutable
    [fst::StdVectorFst], empty when constructed, [add_word_to_dictionary]
    (decoder_utils.h; the automaton afterwards), the three OpenFst
    algorithms, and the constructor of [FstType] from a mutable automaton. *)
Class FstBuild `{OpenFst} := {
  StdVectorFst : Type;
  fst_empty : StdVectorFst;
  add_word_to_dictionary :
    string -> gmap string Z -> bool -> Z -> StdVectorFst -> StdVectorFst;
  RmEpsilon : StdVectorFst -> StdVectorFst;
  Determinize : StdVectorFst -> StdVectorFst;
  Minimize : StdVectorFst -> StdVectorFst;
  ConstFst : StdVectorFst -> FstType;
}.

Section ScorerSetup.

Context `{Engine} `{Constants} `{OpenFst} `{!Files} `{AlphabetOps} `{Tokens}
        `{!FstBuild} `{Uninitialised}.

(** The scorer with the member the record above leaves out:
    [std::unordered_map<std::string, int> char_map_]. *)
Record ScorerState := {
  scorer : Scorer;
  char_map_ : gmap string Z;
}.

Definition set_SPACE_ID (s : Scorer) (id : Z) : Scorer :=
  mkScorer (alpha s) (beta s) (dictionary s) (language_model_ s)
    (is_utf8_mode_ s) (max_order_ s) id (alphabet_ s).
Definition set_alphabet_ (s : Scorer) (a : Alphabet) : Scorer :=
  mkScorer (alpha s) (beta s) (dictionary s) (language_model_ s)
    (is_utf8_mode_ s) (max_order_ s) (SPACE_ID_ s) a.

(** ** [Scorer::setup_char_map] *)

(** [for (int i = 0; i < alphabet_.GetSize(); i++)
       char_map_[alphabet_.StringFromLabel(i)] = i + 1;]
    [n] counts the iterations that are left. *)
Fixpoint char_map_loop (a : Alphabet) (n : nat) (i : Z)
    (char_map : gmap string Z) : gmap string Z :=
  match n with
  | O => char_map
  | S n' => char_map_loop a n' (i + 1) (<[StringFromLabel a i := i + 1]> char_map)
  end.

Definition setup_char_map (x : ScorerState) : ScorerState :=
  let a := alphabet_ (scorer x) in
  {| scorer := set_SPACE_ID (scorer x) (GetSpaceLabel a);
     char_map_ := char_map_loop a (GetSize a) 0 ∅ |}.

(** ** [Scorer::set_alphabet] *)
Definition set_alphabet (x : ScorerState) (alphabet : Alphabet) : ScorerState :=
  setup_char_map {| scorer := set_alphabet_ (scorer x) alphabet;
                    char_map_ := char_map_ x |}.

(** ** [Scorer::init], the overload that is given an alphabet *)
Definition init (x : ScorerState) (lm_path : string) (alphabet : Alphabet)
  : option (Z * string * ScorerState) :=
  let x := set_alphabet x alphabet in
  '(err, cerr, s) ← load_lm (scorer x) lm_path;
  Some (err, cerr, {| scorer := s; char_map_ := char_map_ x |}).

(** ** [Scorer::init], the overload that is given the path of an alphabet
    configuration *)
Definition init_from_config (x : ScorerState) (lm_path : string)
    (alphabet_config_path : string) : option (Z * string * ScorerState) :=
  let '(err, a) := Alphabet_init (alphabet_ (scorer x)) alphabet_config_path in
  let x := {| scorer := set_alphabet_ (scorer x) a; char_map_ := char_map_ x |} in
  if negb (err =? 0) then Some (err, EmptyString, x)
  else
    let x := setup_char_map x in
    '(err, cerr, s) ← load_lm (scorer x) lm_path;
    Some (err, cerr, {| scorer := s; char_map_ := char_map_ x |}).

(** ** [Scorer::fill_dictionary] *)

Definition reserved (word : string) : bool :=
  String.eqb word START_TOKEN || String.eqb word UNK_TOKEN
  || String.eqb word END_TOKEN.

(** [for (const auto& word : vocabulary) if (word != START_TOKEN && ...)
       add_word_to_dictionary(word, char_map_, is_utf8_mode_,
                              SPACE_ID_ + 1, &dictionary);] *)
Fixpoint add_words (x : ScorerState) (vocabulary : list string)
    (dictionary : StdVectorFst) : StdVectorFst :=
  match vocabulary with
  | [] => dictionary
  | word :: rest =>
      add_words x rest
        (if negb (String.eqb word START_TOKEN)
            && negb (String.eqb word UNK_TOKEN)
            && negb (String.eqb word END_TOKEN)
         then add_word_to_dictionary word (char_map_ x)
                (is_utf8_mode_ (scorer x)) (SPACE_ID_ (scorer x) + 1) dictionary
         else dictionary)
  end.

Definition fill_dictionary (x : ScorerState) (vocabulary : list string)
  : ScorerState :=
  let dictionary := add_words x vocabulary fst_empty in
  let dictionary := RmEpsilon dictionary in
  let new_dict := Determinize dictionary in
  let new_dict := Minimize new_dict in
  let converted := ConstFst new_dict in
  {| scorer := set_dictionary (scorer x) (Some converted);
     char_map_ := char_map_ x |}.

End ScorerSetup.

(** ** Paths and windows, for stating what the walk and the sentence
    scorer compute *)

(** The root of a prefix tree, and the node reached from [node] along
    [labels]. *)
Definition trie_root : PathTrie := mkPathTrie (-1) None.

Definition descend (node : PathTrie) (labels : list Z) : PathTrie :=
  fold_left (fun node c => mkPathTrie c (Some node)) labels node.

(** The labels of a sentence: its words, each two separated by the space
    label. *)
Fixpoint sentence_labels (space_id : Z) (words : list (list Z)) : list Z :=
  match words with
  | [] => []
  | [w] => w
  | w :: rest => w ++ space_id :: sentence_labels space_id rest
  end.

(** The window of the [j]-th iteration of [get_sent_log_prob], [j] from 1:
    where it starts, where it ends, and its two flags, for a sentence of
    [sent_len] words and order [max_order]. *)
Definition window_start (max_order : nat) (j : nat) : nat :=
  match max_order with
  | O => 0%nat
  | _ => (j - max_order)%nat
  end.

Definition window_end (sent_len : nat) (j : nat) : nat := Nat.min j sent_len.

Definition window_bos (max_order : nat) (j : nat) : bool :=
  bool_decide (j < max_order)%nat.

Definition window_eos (sent_len : nat) (j : nat) : bool :=
  bool_decide (j = S sent_len).

(** The score of the [j]-th window. *)
Definition window_score `{Engine} `{Constants} `{OpenFst} (s : Scorer)
    (words : list string) (j : nat) : option float :=
  let from := window_start (max_order_ s) j in
  let to := window_end (length words) j in
  get_log_cond_prob s (take (to - from) (drop from words))
    (window_bos (max_order_ s) j) (window_eos (length words) j).

(** The same scorer with another order. *)
Definition with_max_order `{Engine} `{OpenFst} (s : Scorer) (k : nat) : Scorer :=
  mkScorer (alpha s) (beta s) (dictionary s) (language_model_ s)
    (is_utf8_mode_ s) k (SPACE_ID_ s) (alphabet_ s).

(** A word on a path: labels, at least one, none of them the space label
    or the label of the root. *)
Definition well_formed_word (space_id : Z) (w : list Z) : Prop :=
  w <> [] /\ Forall (fun c => c <> space_id /\ c <> -1) w.

(** A codepoint on a path: a byte that starts one, followed by bytes that
    do not. *)
Definition well_formed_codepoint `{PathTrieOps} (cp : list Z) : Prop :=
  match cp with
  | [] => False
  | lead :: rest =>
      byte_is_codepoint_boundary lead = true /\ lead <> -1
      /\ Forall (fun c => byte_is_codepoint_boundary c = false /\ c <> -1) rest
  end.

(** An alphabet of three labels for trying the setup out: two letters and
    the space. *)
Module ToySetup.

Definition letter (label : Z) : string :=
  if label =? 0 then "a" else if label =? 1 then "b" else " ".

Definition letters : Alphabet :=
  {| GetSize := 3;
     GetSpaceLabel := 2;
     LabelsToString := fun labels => String.concat "" (letter <$> labels) |}.

(** The configuration file [alphabet.txt] holds [letters]; no other file
    can be read. *)
Definition alphabet_ops : AlphabetOps :=
  {| StringFromLabel := fun a label => LabelsToString a [label];
     Alphabet_init := fun a path =>
       if String.eqb path "alphabet.txt" then (0, letters) else (1, a) |}.

Definition state : @ScorerState Toy.engine Toy.openfst :=
  {| scorer := @set_alphabet_ Toy.engine Toy.openfst (Toy.scorer false) letters;
     char_map_ := {[ "z" := 26 ]} |}.

End ToySetup.

(* ===================================================================== *)
(** * Properties: the conversions between [double] and [float] *)
(* ===================================================================== *)

Section ConversionFacts.

Import IEEE.

Lemma pow2_succ (d : Z) : 0 < d -> 2 ^ d = 2 * 2 ^ (d - 1).
Proof. intros Hd. rewrite <- Z.pow_succ_r by lia. f_equal. lia. Qed.

(** The number of binary digits. *)
Lemma digits2_pos_bounds (m : positive) :
  2 ^ (Z.pos (digits2_pos m) - 1) <= Z.pos m < 2 ^ Z.pos (digits2_pos m).
Proof.
  induction m as [m IH|m IH|]; cbn [digits2_pos].
  - rewrite Pos2Z.inj_succ, (pow2_succ (Z.succ _)) by lia.
    replace (Z.succ (Z.pos (digits2_pos m)) - 1) with (Z.pos (digits2_pos m)) by lia.
    rewrite (pow2_succ (Z.pos _)) in * by lia. lia.
  - rewrite Pos2Z.inj_succ, (pow2_succ (Z.succ _)) by lia.
    replace (Z.succ (Z.pos (digits2_pos m)) - 1) with (Z.pos (digits2_pos m)) by lia.
    rewrite (pow2_succ (Z.pos _)) in * by lia. lia.
  - simpl. lia.
Qed.

Lemma digits2_pos_unique (m : positive) (d : Z) :
  2 ^ (d - 1) <= Z.pos m < 2 ^ d -> Z.pos (digits2_pos m) = d.
Proof.
  intros Hd. pose proof (digits2_pos_bounds m) as Hb.
  assert (0 < d).
  { destruct (Z_lt_le_dec 0 d) as [|Hle]; [assumption|].
    destruct (Z.eq_dec d 0) as [->|]; [simpl in Hd; lia|].
    rewrite (Z.pow_neg_r 2 d) in Hd by lia. lia. }
  destruct (Z.lt_trichotomy (Z.pos (digits2_pos m)) d) as [Hlt|[Heq|Hgt]]; [|assumption|].
  - assert (2 ^ Z.pos (digits2_pos m) <= 2 ^ (d - 1)) by (apply Z.pow_le_mono_r; lia). lia.
  - assert (2 ^ d <= 2 ^ (Z.pos (digits2_pos m) - 1)) by (apply Z.pow_le_mono_r; lia). lia.
Qed.

(** Shifting left. *)
Lemma iter_xO (m d : positive) : Z.pos (Pos.iter xO m d) = Z.pos m * 2 ^ Z.pos d.
Proof.
  induction d as [|d IH] using Pos.peano_ind.
  - simpl. lia.
  - rewrite Pos.iter_succ, Pos2Z.inj_succ, Z.pow_succ_r by lia.
    rewrite Pos2Z.inj_xO, IH. lia.
Qed.

(** Shifting right loses nothing when the bits shifted out are zero. *)
Lemma iter_pos_nat {A} (f : A -> A) (p : positive) (x : A) :
  SpecFloat.iter_pos f p x = Nat.iter (Pos.to_nat p) f x.
Proof.
  revert x. induction p as [p IH|p IH|]; intros x; cbn [SpecFloat.iter_pos].
  - rewrite !IH. rewrite Pos2Nat.inj_xI.
    replace (S (2 * Pos.to_nat p))%nat with (Pos.to_nat p + S (Pos.to_nat p))%nat by lia.
    rewrite Nat.iter_add, Nat.iter_succ_r. reflexivity.
  - rewrite !IH. rewrite Pos2Nat.inj_xO.
    replace (2 * Pos.to_nat p)%nat with (Pos.to_nat p + Pos.to_nat p)%nat by lia.
    rewrite Nat.iter_add. reflexivity.
  - reflexivity.
Qed.

Lemma shr_1_double (m : positive) :
  shr_1 {| shr_m := Z.pos m * 2; shr_r := false; shr_s := false |}
  = {| shr_m := Z.pos m; shr_r := false; shr_s := false |}.
Proof. replace (Z.pos m * 2) with (Z.pos m~0) by lia. reflexivity. Qed.

Lemma shr_exact_nat (n : nat) (m : positive) :
  Nat.iter n shr_1 {| shr_m := Z.pos m * 2 ^ Z.of_nat n; shr_r := false; shr_s := false |}
  = {| shr_m := Z.pos m; shr_r := false; shr_s := false |}.
Proof.
  induction n as [|n IH].
  - simpl. f_equal. lia.
  - rewrite Nat.iter_succ_r.
    replace (Z.pos m * 2 ^ Z.of_nat (S n)) with (Z.pos (m * Z.to_pos (2 ^ Z.of_nat n)) * 2).
    + rewrite shr_1_double.
      replace (Z.pos (m * Z.to_pos (2 ^ Z.of_nat n))) with (Z.pos m * 2 ^ Z.of_nat n);
        [exact IH|].
      rewrite Pos2Z.inj_mul, Z2Pos.id; [reflexivity|]. apply Z.pow_pos_nonneg; lia.
    + rewrite Nat2Z.inj_succ, Z.pow_succ_r by lia.
      rewrite Pos2Z.inj_mul, Z2Pos.id; [lia|]. apply Z.pow_pos_nonneg; lia.
Qed.

Lemma shr_exact (m : positive) (e : Z) (k : positive) :
  shr {| shr_m := Z.pos m * 2 ^ Z.pos k; shr_r := false; shr_s := false |} e (Z.pos k)
  = ({| shr_m := Z.pos m; shr_r := false; shr_s := false |}, e + Z.pos k).
Proof.
  unfold shr. rewrite iter_pos_nat. f_equal.
  rewrite <- (positive_nat_Z k) at 1. apply shr_exact_nat.
Qed.
Lemma land_mul_pow2_small (x n b : Z) :
  0 <= n -> 0 <= b < 2 ^ n -> Z.land (x * 2 ^ n) b = 0.
Proof.
  intros Hn Hb. apply Z.bits_inj'. intros i Hi.
  rewrite Z.land_spec, Z.bits_0.
  destruct (Z.lt_ge_cases i n) as [Hlt|Hge].
  - rewrite Z.mul_pow2_bits_low by assumption. reflexivity.
  - rewrite <- (Z.mod_small b (2 ^ n)) by assumption.
    rewrite Z.mod_pow2_bits_high by lia. apply andb_false_r.
Qed.

Lemma lor_mul_pow2_small (x n b : Z) :
  0 <= n -> 0 <= b < 2 ^ n -> Z.lor (x * 2 ^ n) b = x * 2 ^ n + b.
Proof.
  intros Hn Hb. rewrite <- Z.lxor_lor by (apply land_mul_pow2_small; assumption).
  symmetry. apply Z.add_nocarry_lxor, land_mul_pow2_small; assumption.
Qed.

(** ** Rounding a value that the format holds *)

Section Exact.
Variables prec emax : Z.

Lemma shr_fexp_canonical (m : positive) (e : Z) :
  fexp prec emax (Z.pos (digits2_pos m) + e) = e ->
  shr_fexp prec emax (Z.pos m) e loc_Exact
  = ({| shr_m := Z.pos m; shr_r := false; shr_s := false |}, e).
Proof.
  intros Hc. unfold shr_fexp. cbn [Zdigits2 shr_record_of_loc].
  rewrite Hc, Z.sub_diag. reflexivity.
Qed.

Lemma binary_round_aux_canonical (s : bool) (m : positive) (e : Z) :
  fexp prec emax (Z.pos (digits2_pos m) + e) = e ->
  e <= emax - prec ->
  binary_round_aux prec emax s (Z.pos m) e loc_Exact = S754_finite s m e.
Proof.
  intros Hc He. unfold binary_round_aux.
  rewrite shr_fexp_canonical by assumption.
  cbn [shr_m loc_of_shr_record shr_r shr_s round_nearest_even].
  rewrite shr_fexp_canonical by assumption. cbn [shr_m].
  apply Z.leb_le in He. rewrite He. reflexivity.
Qed.

(** The target exponent is at or below the given one: shift left. *)
Lemma binary_round_left (s : bool) (m : positive) (e t : Z) :
  fexp prec emax (Z.pos (digits2_pos m) + e) = t ->
  t <= e -> t <= emax - prec ->
  binary_round prec emax s m e
  = S754_finite s (Z.to_pos (Z.pos m * 2 ^ (e - t))) t.
Proof.
  intros Ht Hle Hmax. unfold binary_round. rewrite Ht. unfold shl_align.
  destruct (t - e) as [|k|k] eqn:Hk; try lia.
  - assert (Hte : t = e) by lia. rewrite Hte in *.
    rewrite Z.sub_diag, Z.mul_1_r, Pos2Z.id.
    apply binary_round_aux_canonical; assumption.
  - replace (e - t) with (Z.pos k) by lia.
    rewrite <- iter_xO, Pos2Z.id.
    apply binary_round_aux_canonical; [|assumption].
    rewrite <- Ht. f_equal.
    assert (Hd : Z.pos (digits2_pos (Pos.iter xO m k))
                 = Z.pos (digits2_pos m) + Z.pos k).
    { apply digits2_pos_unique. rewrite iter_xO.
      pose proof (digits2_pos_bounds m) as Hb.
      replace (Z.pos (digits2_pos m) + Z.pos k - 1)
        with (Z.pos (digits2_pos m) - 1 + Z.pos k) by lia.
      rewrite !Z.pow_add_r by lia.
      assert (0 < 2 ^ Z.pos k) by (apply Z.pow_pos_nonneg; lia). nia. }
    rewrite Hd. lia.
Qed.

(** The target exponent is above: shift right, here without loss. *)
Lemma binary_round_right (s : bool) (m' : positive) (e : Z) (k : positive) :
  let m := Z.to_pos (Z.pos m' * 2 ^ Z.pos k) in
  fexp prec emax (Z.pos (digits2_pos m) + e) = e + Z.pos k ->
  e + Z.pos k <= emax - prec ->
  binary_round prec emax s m e = S754_finite s m' (e + Z.pos k).
Proof.
  intros m Ht Hmax.
  assert (Hm : Z.pos m = Z.pos m' * 2 ^ Z.pos k).
  { subst m. rewrite Z2Pos.id; [reflexivity|].
    assert (0 < 2 ^ Z.pos k) by (apply Z.pow_pos_nonneg; lia). lia. }
  unfold binary_round. rewrite Ht. unfold shl_align.
  replace (e + Z.pos k - e) with (Z.pos k) by lia.
  unfold binary_round_aux, shr_fexp. cbn [Zdigits2 shr_record_of_loc].
  rewrite Ht. replace (e + Z.pos k - e) with (Z.pos k) by lia.
  rewrite Hm, shr_exact.
  cbn [shr_m loc_of_shr_record shr_r shr_s round_nearest_even Zdigits2].
  assert (Hd : Z.pos (digits2_pos m) = Z.pos (digits2_pos m') + Z.pos k).
  { apply digits2_pos_unique. rewrite Hm.
    pose proof (digits2_pos_bounds m') as Hb.
    replace (Z.pos (digits2_pos m') + Z.pos k - 1)
      with (Z.pos (digits2_pos m') - 1 + Z.pos k) by lia.
    rewrite !Z.pow_add_r by lia.
    assert (0 < 2 ^ Z.pos k) by (apply Z.pow_pos_nonneg; lia). nia. }
  assert (Hf : fexp prec emax (Z.pos (digits2_pos m') + (e + Z.pos k))
               = e + Z.pos k).
  { transitivity (fexp prec emax (Z.pos (digits2_pos m) + e));
      [f_equal; lia | exact Ht]. }
  rewrite Hf, Z.sub_diag. cbn [shr shr_m].
  apply Z.leb_le in Hmax. rewrite Hmax. reflexivity.
Qed.

End Exact.

(** ** Bit fields *)

Lemma lor_high (a q n r : Z) :
  0 <= n -> 0 <= r < 2 ^ n ->
  Z.lor (a * 2 ^ n) (q * 2 ^ n + r) = Z.lor a q * 2 ^ n + r.
Proof.
  intros Hn Hr. rewrite <- (lor_mul_pow2_small q n r) by assumption.
  rewrite Z.lor_assoc, <- !Z.shiftl_mul_pow2, <- Z.shiftl_lor by assumption.
  rewrite Z.shiftl_mul_pow2 by assumption. apply lor_mul_pow2_small; assumption.
Qed.

Lemma sign_field_b2z (mw ew : Z) (s : bool) :
  0 <= mw + ew -> sign_field mw ew s = b2z s * 2 ^ (mw + ew).
Proof.
  intros Hn. unfold sign_field, b2z. destruct s; [|reflexivity].
  rewrite Z.shiftl_mul_pow2 by assumption. reflexivity.
Qed.

Lemma b2z_range (s : bool) : 0 <= b2z s < 2.
Proof. destruct s; simpl; lia. Qed.

Lemma odd_b2z (s : bool) : Z.odd (b2z s) = s.
Proof. destruct s; reflexivity. Qed.

Lemma fields32 (s : bool) (E M : Z) :
  0 <= E < 2 ^ 8 -> 0 <= M < 2 ^ 23 ->
  let f := b2z s * 2 ^ 31 + E * 2 ^ 23 + M in
  sign_of 23 8 f = s /\ exponent_field 23 8 f = E /\ fraction_field 23 f = M.
Proof.
  intros HE HM f. pose proof (b2z_range s) as Hs.
  unfold sign_of, exponent_field, fraction_field.
  rewrite !Z.land_ones, Z.shiftr_div_pow2, Z.testbit_odd, Z.shiftr_div_pow2 by lia.
  change (23 + 8) with 31.
  replace (f / 2 ^ 31) with (b2z s) by (subst f; Z.div_mod_to_equations; lia).
  rewrite odd_b2z. repeat split; subst f; Z.div_mod_to_equations; lia.
Qed.

Lemma fields64 (s : bool) (E M : Z) :
  0 <= E < 2 ^ 11 -> 0 <= M < 2 ^ 52 ->
  let f := b2z s * 2 ^ 63 + E * 2 ^ 52 + M in
  sign_of 52 11 f = s /\ exponent_field 52 11 f = E /\ fraction_field 52 f = M.
Proof.
  intros HE HM f. pose proof (b2z_range s) as Hs.
  unfold sign_of, exponent_field, fraction_field.
  rewrite !Z.land_ones, Z.shiftr_div_pow2, Z.testbit_odd, Z.shiftr_div_pow2 by lia.
  change (52 + 11) with 63.
  replace (f / 2 ^ 63) with (b2z s) by (subst f; Z.div_mod_to_equations; lia).
  rewrite odd_b2z. repeat split; subst f; Z.div_mod_to_equations; lia.
Qed.

Lemma unpack32 (f : Z) :
  0 <= f < 2 ^ 32 ->
  exists s E M, 0 <= E < 2 ^ 8 /\ 0 <= M < 2 ^ 23
                /\ f = b2z s * 2 ^ 31 + E * 2 ^ 23 + M.
Proof.
  intros Hf. exists (Z.odd (f / 2 ^ 31)), ((f / 2 ^ 23) mod 2 ^ 8), (f mod 2 ^ 23).
  assert (Hs : b2z (Z.odd (f / 2 ^ 31)) = f / 2 ^ 31).
  { assert (Hq : f / 2 ^ 31 = 0 \/ f / 2 ^ 31 = 1) by (Z.div_mod_to_equations; lia).
    destruct Hq as [-> | ->]; reflexivity. }
  rewrite Hs. repeat split; Z.div_mod_to_equations; lia.
Qed.

Lemma encode32_normal (s : bool) (m : positive) (e : Z) :
  2 ^ 23 <= Z.pos m < 2 ^ 24 -> 0 <= e + 150 < 2 ^ 8 ->
  encode 23 8 (S754_finite s m e)
  = b2z s * 2 ^ 31 + (e + 150) * 2 ^ 23 + (Z.pos m - 2 ^ 23).
Proof.
  intros Hm He. unfold encode.
  destruct (Z.ltb_spec (Z.pos m) (2 ^ 23)) as [|_]; [lia|].
  rewrite sign_field_b2z by lia. change (23 + 8) with 31.
  replace (e + bias 8 + 23) with (e + 150) by (unfold bias; simpl; lia).
  rewrite Z.shiftl_mul_pow2 by lia.
  rewrite (lor_mul_pow2_small (e + 150) 23) by lia.
  rewrite lor_mul_pow2_small by lia. lia.
Qed.

Lemma encode32_subnormal (s : bool) (m : positive) (e : Z) :
  Z.pos m < 2 ^ 23 ->
  encode 23 8 (S754_finite s m e) = b2z s * 2 ^ 31 + Z.pos m.
Proof.
  intros Hm. unfold encode.
  destruct (Z.ltb_spec (Z.pos m) (2 ^ 23)) as [_|]; [|lia].
  rewrite sign_field_b2z by lia. change (23 + 8) with 31.
  apply lor_mul_pow2_small; lia.
Qed.

Lemma encode64_normal (s : bool) (m : positive) (e : Z) :
  2 ^ 52 <= Z.pos m < 2 ^ 53 -> 0 <= e + 1075 < 2 ^ 11 ->
  encode 52 11 (S754_finite s m e)
  = b2z s * 2 ^ 63 + (e + 1075) * 2 ^ 52 + (Z.pos m - 2 ^ 52).
Proof.
  intros Hm He. unfold encode.
  destruct (Z.ltb_spec (Z.pos m) (2 ^ 52)) as [|_]; [lia|].
  rewrite sign_field_b2z by lia. change (52 + 11) with 63.
  replace (e + bias 11 + 52) with (e + 1075) by (unfold bias; simpl; lia).
  rewrite Z.shiftl_mul_pow2 by lia.
  rewrite (lor_mul_pow2_small (e + 1075) 52) by lia.
  rewrite lor_mul_pow2_small by lia. lia.
Qed.

(** ** A binary32 value goes to binary64 and back unchanged *)

Lemma digits_shifted (m : positive) (k : Z) :
  0 <= k ->
  Z.pos (digits2_pos (Z.to_pos (Z.pos m * 2 ^ k))) = Z.pos (digits2_pos m) + k.
Proof.
  intros Hk. apply digits2_pos_unique.
  assert (0 < 2 ^ k) by (apply Z.pow_pos_nonneg; lia).
  rewrite Z2Pos.id by lia.
  pose proof (digits2_pos_bounds m) as Hb.
  replace (Z.pos (digits2_pos m) + k - 1)
    with (Z.pos (digits2_pos m) - 1 + k) by lia.
  rewrite !Z.pow_add_r by lia. nia.
Qed.

Lemma widen_narrow_finite (s : bool) (m : positive) (e : Z) :
  let d := Z.pos (digits2_pos m) in
  d <= 24 -> -149 <= e <= 104 -> d = 24 \/ e = -149 ->
  let mz := Z.to_pos (Z.pos m * 2 ^ (53 - d)) in
  let ez := d + e - 53 in
  round 52 11 (S754_finite s m e) = S754_finite s mz ez
  /\ round 23 8 (S754_finite s mz ez) = S754_finite s m e
  /\ 2 ^ 52 <= Z.pos mz < 2 ^ 53.
Proof.
  intros d Hd He Hcanon mz ez.
  assert (Hd1 : 1 <= d) by (subst d; lia).
  assert (Hdz : Z.pos (digits2_pos mz) = 53).
  { subst mz. rewrite digits_shifted by lia. fold d. lia. }
  split; [|split].
  - unfold round. change (52 + 1) with 53. change (2 ^ (11 - 1)) with 1024.
    unfold mz. replace (53 - d) with (e - ez) by (subst ez; lia).
    apply binary_round_left.
    + fold d. unfold fexp, emin. lia.
    + lia.
    + lia.
  - unfold round. change (23 + 1) with 24. change (2 ^ (8 - 1)) with 128.
    destruct (53 - d) as [|k|k] eqn:Hk; try lia.
    replace e with (ez + Z.pos k) by lia.
    subst mz. apply binary_round_right.
    + rewrite digits_shifted by lia. fold d. unfold fexp, emin. lia.
    + lia.
  - pose proof (digits2_pos_bounds mz) as Hb. rewrite Hdz in Hb.
    change (53 - 1) with 52 in Hb. exact Hb.
Qed.

Lemma decode64_normal (s : bool) (E M : Z) :
  0 < E < 2047 -> 0 <= M < 2 ^ 52 ->
  decode 52 11 (b2z s * 2 ^ 63 + E * 2 ^ 52 + M)
  = S754_finite s (Z.to_pos (M + 2 ^ 52)) (E - 1075).
Proof.
  intros HE HM. unfold decode.
  destruct (fields64 s E M) as (-> & -> & ->); [lia..|].
  destruct (Z.eqb_spec E 0); [lia|].
  change (Z.ones 11) with 2047. destruct (Z.eqb_spec E 2047); [lia|].
  f_equal. unfold bias. simpl. lia.
Qed.

Lemma is_nan64_normal (s : bool) (E M : Z) :
  0 <= E < 2047 -> 0 <= M < 2 ^ 52 ->
  is_nan 52 11 (b2z s * 2 ^ 63 + E * 2 ^ 52 + M) = false.
Proof.
  intros HE HM. unfold is_nan.
  destruct (fields64 s E M) as (_ & -> & _); [lia..|].
  change (Z.ones 11) with 2047. destruct (Z.eqb_spec E 2047); [lia|reflexivity].
Qed.

(** The value a finite non-zero binary32 pattern stands for. *)
Lemma decode32_finite (s : bool) (E M : Z) :
  0 <= E < 255 -> 0 <= M < 2 ^ 23 -> E <> 0 \/ M <> 0 ->
  exists m e,
    decode 23 8 (b2z s * 2 ^ 31 + E * 2 ^ 23 + M) = S754_finite s m e
    /\ Z.pos (digits2_pos m) <= 24
    /\ -149 <= e <= 104
    /\ (Z.pos (digits2_pos m) = 24 \/ e = -149)
    /\ encode 23 8 (S754_finite s m e) = b2z s * 2 ^ 31 + E * 2 ^ 23 + M.
Proof.
  intros HE HM Hnz. unfold decode.
  destruct (fields32 s E M) as (-> & -> & ->); [lia..|].
  change (Z.ones 8) with 255.
  destruct (Z.eqb_spec E 0) as [->|HE0].
  - destruct (Z.eqb_spec M 0) as [|HM0]; [lia|].
    exists (Z.to_pos M), (-149).
    assert (HposM : Z.pos (Z.to_pos M) = M) by (apply Z2Pos.id; lia).
    split; [reflexivity|].
    assert (Hdig : Z.pos (digits2_pos (Z.to_pos M)) <= 23).
    { pose proof (digits2_pos_bounds (Z.to_pos M)) as Hb. rewrite HposM in Hb.
      destruct (Z_le_gt_dec (Z.pos (digits2_pos (Z.to_pos M))) 23) as [|Hgt];
        [assumption|].
      assert (2 ^ 23 <= 2 ^ (Z.pos (digits2_pos (Z.to_pos M)) - 1))
        by (apply Z.pow_le_mono_r; lia). lia. }
    split; [lia|].
    split; [lia|]. split; [right; reflexivity|].
    rewrite encode32_subnormal by lia. lia.
  - destruct (Z.eqb_spec E 255); [lia|].
    exists (Z.to_pos (M + 2 ^ 23)), (E - 150).
    assert (Hpos : Z.pos (Z.to_pos (M + 2 ^ 23)) = M + 2 ^ 23)
      by (apply Z2Pos.id; lia).
    split; [f_equal; unfold bias; simpl; lia|].
    assert (Hdig : Z.pos (digits2_pos (Z.to_pos (M + 2 ^ 23))) = 24).
    { apply digits2_pos_unique. rewrite Hpos. change (24 - 1) with 23. lia. }
    split; [lia|].
    split; [lia|]. split; [left; assumption|].
    rewrite encode32_normal by lia. lia.
Qed.

Lemma narrow_widen_finite (s : bool) (E M : Z) :
  0 <= E < 255 -> 0 <= M < 2 ^ 23 -> E <> 0 \/ M <> 0 ->
  let f := b2z s * 2 ^ 31 + E * 2 ^ 23 + M in
  0 <= float_to_double f < 2 ^ 64
  /\ double_to_float (float_to_double f) = f.
Proof.
  intros HE HM Hnz f. pose proof (b2z_range s) as Hs.
  destruct (decode32_finite s E M HE HM Hnz)
    as (m & e & Hdec & Hd & He & Hcanon & Henc).
  destruct (widen_narrow_finite s m e Hd He Hcanon) as (Hwide & Hnarrow & Hmz).
  set (mz := Z.to_pos (Z.pos m * 2 ^ (53 - Z.pos (digits2_pos m)))) in *.
  set (ez := Z.pos (digits2_pos m) + e - 53) in *.
  assert (Hd1 : 1 <= Z.pos (digits2_pos m)) by lia.
  assert (Hfd : float_to_double f
                = b2z s * 2 ^ 63 + (ez + 1075) * 2 ^ 52 + (Z.pos mz - 2 ^ 52)).
  { unfold float_to_double.
    assert (Hnan : is_nan 23 8 f = false).
    { unfold is_nan. subst f.
      destruct (fields32 s E M) as (_ & -> & _); [lia..|].
      change (Z.ones 8) with 255. destruct (Z.eqb_spec E 255); [lia|reflexivity]. }
    rewrite Hnan. fold f in Hdec. rewrite Hdec, Hwide.
    apply encode64_normal; [assumption | subst ez; lia]. }
  rewrite Hfd. split; [subst ez; lia|].
  unfold double_to_float.
  rewrite is_nan64_normal by (subst ez; lia).
  rewrite decode64_normal by (subst ez; lia).
  replace (Z.pos mz - 2 ^ 52 + 2 ^ 52) with (Z.pos mz) by lia.
  rewrite Pos2Z.id. replace (ez + 1075 - 1075) with ez by lia.
  rewrite Hnarrow. exact Henc.
Qed.

(** ** NaNs: the conversions keep sign and payload and set the quiet bit *)

Lemma float_to_double_nan (s : bool) (M : Z) :
  0 < M < 2 ^ 23 ->
  float_to_double (b2z s * 2 ^ 31 + 255 * 2 ^ 23 + M)
  = b2z s * 2 ^ 63 + 4095 * 2 ^ 51 + (M mod 2 ^ 22) * 2 ^ 29.
Proof.
  intros HM. pose proof (b2z_range s) as Hs. unfold float_to_double, is_nan.
  destruct (fields32 s 255 M) as (-> & -> & ->); [lia..|].
  change (Z.ones 8) with 255. rewrite Z.eqb_refl.
  destruct (Z.eqb_spec M 0); [lia|]. cbn [andb negb].
  rewrite sign_field_b2z by lia. change (52 + 11) with 63.
  rewrite Z.shiftl_mul_pow2 by lia.
  change 0x7FF8000000000000 with (4095 * 2 ^ 51).
  replace (M * 2 ^ 29) with ((M / 2 ^ 22) * 2 ^ 51 + (M mod 2 ^ 22) * 2 ^ 29)
    by (Z.div_mod_to_equations; lia).
  rewrite lor_high by (Z.div_mod_to_equations; lia).
  assert (Hq : M / 2 ^ 22 = 0 \/ M / 2 ^ 22 = 1) by (Z.div_mod_to_equations; lia).
  replace (Z.lor 4095 (M / 2 ^ 22)) with 4095
    by (destruct Hq as [-> | ->]; reflexivity).
  rewrite lor_mul_pow2_small by (Z.div_mod_to_equations; lia). lia.
Qed.

Lemma double_to_float_nan (s : bool) (r : Z) :
  0 <= r < 2 ^ 22 ->
  double_to_float (b2z s * 2 ^ 63 + 4095 * 2 ^ 51 + r * 2 ^ 29)
  = b2z s * 2 ^ 31 + 255 * 2 ^ 23 + (2 ^ 22 + r).
Proof.
  intros Hr. pose proof (b2z_range s) as Hs. unfold double_to_float, is_nan.
  replace (b2z s * 2 ^ 63 + 4095 * 2 ^ 51 + r * 2 ^ 29)
    with (b2z s * 2 ^ 63 + 2047 * 2 ^ 52 + (2 ^ 51 + r * 2 ^ 29)) by lia.
  destruct (fields64 s 2047 (2 ^ 51 + r * 2 ^ 29)) as (-> & -> & ->); [lia..|].
  change (Z.ones 11) with 2047. rewrite Z.eqb_refl.
  destruct (Z.eqb_spec (2 ^ 51 + r * 2 ^ 29) 0); [lia|]. cbn [andb negb].
  rewrite sign_field_b2z by lia. change (23 + 8) with 31.
  rewrite Z.shiftr_div_pow2 by lia.
  replace ((2 ^ 51 + r * 2 ^ 29) / 2 ^ 29) with (1 * 2 ^ 22 + r)
    by (Z.div_mod_to_equations; lia).
  change 0x7FC00000 with (511 * 2 ^ 22).
  rewrite lor_high by lia. change (Z.lor 511 1) with 511.
  rewrite lor_mul_pow2_small by lia. lia.
Qed.

(** What [(double)f] gives is a single-precision value, for every [float]. *)
Theorem float_to_double_single_precision (f : Z) :
  0 <= f < 2 ^ 32 -> single_precision (float_to_double f).
Proof.
  intros Hf. destruct (unpack32 f Hf) as (s & E & M & HE & HM & ->).
  pose proof (b2z_range s) as Hs. unfold single_precision.
  destruct (Z.eq_dec E 255) as [->|HE255].
  - destruct (Z.eq_dec M 0) as [->|HM0].
    + destruct s; vm_compute; repeat split; discriminate.
    + rewrite float_to_double_nan by lia.
      assert (Hr : 0 <= M mod 2 ^ 22 < 2 ^ 22) by (apply Z.mod_pos_bound; lia).
      split; [lia|].
      rewrite double_to_float_nan by assumption.
      rewrite float_to_double_nan by lia.
      replace ((2 ^ 22 + M mod 2 ^ 22) mod 2 ^ 22) with (M mod 2 ^ 22)
        by (Z.div_mod_to_equations; lia).
      reflexivity.
  - destruct (Z.eq_dec E 0) as [->|HE0]; [destruct (Z.eq_dec M 0) as [->|HM0]|].
    + destruct s; vm_compute; repeat split; discriminate.
    + destruct (narrow_widen_finite s 0 M) as [Hrange Hback]; [lia..|].
      split; [assumption|]. rewrite Hback. reflexivity.
    + destruct (narrow_widen_finite s E M) as [Hrange Hback]; [lia..|].
      split; [assumption|]. rewrite Hback. reflexivity.
Qed.

(** Every [float] that is not a NaN comes back bit for bit. *)
Theorem double_to_float_to_double (f : Z) :
  0 <= f < 2 ^ 32 -> is_nan 23 8 f = false ->
  double_to_float (float_to_double f) = f.
Proof.
  intros Hf Hnan. destruct (unpack32 f Hf) as (s & E & M & HE & HM & ->).
  unfold is_nan in Hnan.
  destruct (fields32 s E M) as (_ & HfE & HfM); [lia..|].
  rewrite HfE, HfM in Hnan. change (Z.ones 8) with 255 in Hnan. clear HfE HfM.
  destruct (Z.eq_dec E 255) as [->|HE255].
  - destruct (Z.eq_dec M 0) as [->|HM0].
    2:{ apply Z.eqb_neq in HM0. rewrite HM0 in Hnan. discriminate Hnan. }
    destruct s; vm_compute; reflexivity.
  - destruct (Z.eq_dec E 0) as [->|HE0]; [destruct (Z.eq_dec M 0) as [->|HM0]|].
    + destruct s; vm_compute; reflexivity.
    + apply (narrow_widen_finite s 0 M); lia.
    + apply (narrow_widen_finite s E M); lia.
Qed.

End ConversionFacts.

(* ===================================================================== *)
(** * Properties: tfmodelstate.cc *)
(* ===================================================================== *)

Section TensorFacts.

Import TFModelState.
Context {elt : Type} (zero : elt).
Implicit Types (vec : list elt) (pre rest : list (option elt)).

Lemma store_app pre rest r v :
  store (pre ++ r :: rest) (length pre) v = Some (pre ++ Some v :: rest).
Proof.
  unfold store, Tensor. rewrite decide_True.
  - rewrite insert_app_r_alt by lia.
    replace (length pre - length pre)%nat with 0%nat by lia. reflexivity.
  - rewrite length_app. simpl. lia.
Qed.

Lemma store_out_of_range (ret : list (option elt)) i v :
  (length ret <= i)%nat -> store ret i v = None.
Proof. intros Hi. unfold store. rewrite decide_False; [reflexivity | lia]. Qed.

(** The first loop overwrites the cells [i .. i+n) with the elements
    [i .. i+n) of the vector and leaves [i + n] in [i]. *)
Lemma copy_loop_spec vec n : forall pre rest,
  (length pre + n <= length vec)%nat ->
  (n <= length rest)%nat ->
  copy_loop vec n (length pre) (pre ++ rest)
  = Some ((length pre + n)%nat,
          pre ++ (Some <$> take n (drop (length pre) vec)) ++ drop n rest).
Proof.
  induction n as [|n IH]; intros pre rest Hvec Hrest; simpl.
  - rewrite Nat.add_0_r, drop_0. reflexivity.
  - destruct (lookup_lt_is_Some_2 vec (length pre)) as [v Hv]; [lia|].
    rewrite Hv. simpl.
    destruct rest as [|r rest]; [simpl in Hrest; lia|].
    rewrite store_app. simpl.
    specialize (IH (pre ++ [Some v]) rest).
    rewrite length_app in IH. simpl in IH.
    replace (length pre + 1)%nat with (S (length pre)) in IH by lia.
    rewrite <- app_assoc in IH. simpl in IH.
    rewrite IH by (simpl in Hrest; lia).
    rewrite (drop_S _ _ _ Hv). simpl.
    rewrite <- app_assoc. simpl.
    do 2 f_equal. lia.
Qed.

(** The second loop overwrites the cells [i .. i+n) with zero. *)
Lemma fill_loop_spec n : forall pre rest,
  (n <= length rest)%nat ->
  fill_loop zero n (length pre) (pre ++ rest)
  = Some (pre ++ replicate n (Some zero) ++ drop n rest).
Proof.
  induction n as [|n IH]; intros pre rest Hrest; simpl.
  - rewrite drop_0. reflexivity.
  - destruct rest as [|r rest]; [simpl in Hrest; lia|].
    rewrite store_app. simpl.
    specialize (IH (pre ++ [Some zero]) rest).
    rewrite length_app in IH. simpl in IH.
    replace (length pre + 1)%nat with (S (length pre)) in IH by lia.
    rewrite <- app_assoc in IH. simpl in IH.
    rewrite IH by (simpl in Hrest; lia).
    rewrite <- app_assoc. reflexivity.
Qed.

(** C10: when the shape has at least as many elements as the vector, the
    tensor [tensor_from_vector] returns holds the elements of the vector,
    in order, followed by zeros up to its size: every cell has been
    written, the first [vec.size()] with [vec[i]] and all others with
    [0.f].  The shape has fewer than [2^31] elements, so that the [int]
    counter of the two loops reaches the size without overflowing. *)
Theorem tensor_from_vector_zero_padded vec (num_elements : nat) :
  (length vec <= num_elements)%nat ->
  Z.of_nat num_elements < 2 ^ 31 ->
  tensor_from_vector zero vec num_elements
  = Some (Some <$> (vec ++ replicate (num_elements - length vec) zero)).
Proof.
  intros Hlen _. unfold tensor_from_vector, allocate.
  pose proof (copy_loop_spec vec (length vec) [] (replicate num_elements None)) as Hc.
  simpl in Hc. rewrite Hc by (rewrite ?length_replicate; lia). clear Hc.
  simpl. rewrite drop_0, firstn_all, drop_replicate.
  pose proof (fill_loop_spec (num_elements - length vec) (Some <$> vec)
                (replicate (num_elements - length vec) None)) as Hf.
  rewrite length_fmap in Hf. rewrite Hf by (rewrite length_replicate; lia).
  f_equal. rewrite fmap_app, fmap_replicate.
  rewrite drop_replicate, Nat.sub_diag. simpl. rewrite app_nil_r. reflexivity.
Qed.

(** The padded vector, read cell by cell. *)
Lemma zero_padded_cells vec (num_elements : nat) :
  (length vec <= num_elements)%nat ->
  let ret := Some <$> (vec ++ replicate (num_elements - length vec) zero) in
  length ret = num_elements
  /\ (forall i v, vec !! i = Some v -> ret !! i = Some (Some v))
  /\ (forall i, (length vec <= i < num_elements)%nat -> ret !! i = Some (Some zero)).
Proof.
  intros Hlen ret. subst ret. split; [|split].
  - rewrite length_fmap, length_app, length_replicate. lia.
  - intros i v Hv. rewrite list_lookup_fmap, lookup_app_l by (eapply lookup_lt_Some; eauto).
    rewrite Hv. reflexivity.
  - intros i Hi. rewrite list_lookup_fmap, lookup_app_r by lia.
    rewrite lookup_replicate_2 by lia. reflexivity.
Qed.

(** A vector longer than the tensor makes the first loop write past the
    end of the buffer. *)
Lemma tensor_from_vector_too_long vec (num_elements : nat) :
  (num_elements < length vec)%nat ->
  tensor_from_vector zero vec num_elements = None.
Proof.
  intros Hlen. unfold tensor_from_vector, allocate.
  pose proof (copy_loop_spec vec num_elements [] (replicate num_elements None)) as Hc.
  simpl in Hc. rewrite length_replicate in Hc. specialize (Hc ltac:(lia) ltac:(lia)).
  assert (Hsplit : forall n m i ret r,
    copy_loop vec n i ret = Some r ->
    copy_loop vec (n + m) i ret = copy_loop vec m (fst r) (snd r)).
  { induction n as [|n IH]; intros m i ret r Hr; simpl in *.
    - injection Hr as <-. reflexivity.
    - destruct (vec !! i) as [v|]; simpl in *; [|discriminate].
      destruct (store ret i v) as [ret'|]; simpl in *; [|discriminate].
      apply IH. assumption. }
  replace (length vec) with (num_elements + S (length vec - num_elements - 1))%nat by lia.
  rewrite (Hsplit _ _ _ _ _ Hc). simpl.
  destruct (vec !! num_elements) as [v|]; simpl; [|reflexivity].
  rewrite store_out_of_range; [reflexivity|].
  rewrite length_app, length_fmap, length_take, !length_drop, length_replicate. lia.
Qed.

End TensorFacts.

Lemma tensor_from_vector_zero_padded_witness :
  TFModelState.tensor_from_vector 0 [7; 8] 4 = Some [Some 7; Some 8; Some 0; Some 0].
Proof.
  apply (tensor_from_vector_zero_padded 0 [7; 8] 4); simpl; lia.
Defined.

(* ===================================================================== *)
(** * Properties: scorer.cpp, boundary detection *)
(* ===================================================================== *)

(** The chain of shifts and comparisons in the code computes the
    leading-byte classes of the document. *)
Lemma needed_bytes_expected (b : byte) : needed_bytes b = expected_byte_count b.
Proof. destruct b; reflexivity. Qed.

(** The classes by value: one byte below 0x80, two from 0xC0, three from
    0xE0, four from 0xF0 to 0xF7; 0x80..0xBF and 0xF8..0xFF are in none. *)
Lemma expected_byte_count_ranges (b : byte) :
  expected_byte_count b =
    let v := byte.unsigned b in
    if v <? 0x80 then Some 1
    else if v <? 0xC0 then None
    else if v <? 0xE0 then Some 2
    else if v <? 0xF0 then Some 3
    else if v <? 0xF8 then Some 4
    else None.
Proof. destruct b; reflexivity. Qed.

Section BoundaryFacts.

Context `{Engine} `{Constants} `{OpenFst} `{PathTrieOps}.
Implicit Types (s : Scorer) (prefix : PathTrie).

Lemma is_scoring_boundary_utf8_unfold s prefix new_label d b :
  is_utf8_mode_ s = true ->
  character prefix <> -1 ->
  distance_to_codepoint_boundary prefix = (d, b) ->
  is_scoring_boundary s prefix new_label =
    match expected_byte_count b with
    | Some n => Returned (d =? n)
    | None => if NDEBUG then Returned false else Aborted
    end.
Proof.
  intros Hu Hc Hd. unfold is_scoring_boundary. rewrite Hu.
  destruct (Z.eqb_spec (character prefix) (-1)) as [|_]; [contradiction|].
  rewrite Hd, needed_bytes_expected. reflexivity.
Qed.

(** C2: in UTF-8 mode the root is no boundary; at any other node, with
    [b] the leading byte and [d] the distance that
    [distance_to_codepoint_boundary] reports, the call returns [true]
    exactly when [d] is the byte count that the high bits of [b] announce,
    and for a leading byte of one of the four classes it returns whether
    [d] equals that count. *)
Theorem is_scoring_boundary_utf8 s prefix new_label :
  is_utf8_mode_ s = true ->
  (character prefix = -1 ->
   is_scoring_boundary s prefix new_label = Returned false)
  /\ (character prefix <> -1 ->
      forall d b, distance_to_codepoint_boundary prefix = (d, b) ->
        (is_scoring_boundary s prefix new_label = Returned true
         <-> expected_byte_count b = Some d)
        /\ (forall n, expected_byte_count b = Some n ->
            is_scoring_boundary s prefix new_label = Returned (d =? n))).
Proof.
  intros Hu. split.
  - intros Hc. unfold is_scoring_boundary. rewrite Hu, Hc. reflexivity.
  - intros Hc d b Hd.
    rewrite (is_scoring_boundary_utf8_unfold s prefix new_label d b Hu Hc Hd).
    split.
    + destruct (expected_byte_count b) as [n|].
      * split.
        -- intros [= Heq]. apply Z.eqb_eq in Heq. congruence.
        -- intros [= ->]. rewrite Z.eqb_refl. reflexivity.
      * split; [|discriminate]. destruct NDEBUG; discriminate.
    + intros n ->. reflexivity.
Qed.

(** In word mode the answer is the comparison with the space label. *)
Lemma is_scoring_boundary_word s prefix new_label :
  is_utf8_mode_ s = false ->
  is_scoring_boundary s prefix new_label
  = Returned (new_label =? SPACE_ID_ s mod 2 ^ 64).
Proof. intros Hu. unfold is_scoring_boundary. rewrite Hu. reflexivity. Qed.

(** C3, as the code has it: a leading byte outside the four classes runs
    into [assert(false)].  With assertions compiled in the call is stopped
    there; with [NDEBUG] the assertion is empty and the statement after it
    returns [false].  A leading byte of one of the four classes never
    reaches the assertion. *)
Theorem is_scoring_boundary_invalid_byte s prefix new_label d b :
  is_utf8_mode_ s = true ->
  character prefix <> -1 ->
  distance_to_codepoint_boundary prefix = (d, b) ->
  (expected_byte_count b = None ->
   is_scoring_boundary s prefix new_label
   = if NDEBUG then Returned false else Aborted)
  /\ (expected_byte_count b <> None ->
      is_scoring_boundary s prefix new_label <> Aborted).
Proof.
  intros Hu Hc Hd.
  rewrite (is_scoring_boundary_utf8_unfold s prefix new_label d b Hu Hc Hd).
  split.
  - intros ->. reflexivity.
  - destruct (expected_byte_count b); [discriminate | congruence].
Qed.

End BoundaryFacts.

(* ===================================================================== *)
(** * Properties: scorer.cpp, scoring *)
(* ===================================================================== *)

Section ScoringFacts.

Context `{Engine} `{Constants} `{OpenFst}.
Implicit Types (s : Scorer) (lm : Model) (words : list string) (st : State).

(** The loop stops at the first out-of-vocabulary word, whatever came
    before and whatever follows. *)
Lemma score_words_oov lm words st cond_prob :
  Exists (fun w => Index lm w = kUNK) words ->
  score_words lm words st cond_prob = Return OOV_SCORE.
Proof.
  intros Hex. revert st cond_prob.
  induction words as [|w words IH]; intros st cond_prob.
  - inversion Hex.
  - simpl. destruct (Z.eqb_spec (Index lm w) kUNK) as [|Hne]; [reflexivity|].
    destruct (BaseScore lm st (Index lm w)) as [p st'].
    apply IH. inversion Hex; subst; [contradiction | assumption].
Qed.

Lemma score_words_in_vocabulary lm words st cond_prob :
  Forall (fun w => Index lm w <> kUNK) words ->
  score_words lm words st cond_prob
  = FallThrough (last_step lm (Index lm <$> words) st cond_prob).1
                (last_step lm (Index lm <$> words) st cond_prob).2.
Proof.
  intros Hall. revert st cond_prob.
  induction Hall as [|w words Hw _ IH]; intros st cond_prob.
  - reflexivity.
  - simpl. destruct (Z.eqb_spec (Index lm w) kUNK) as [|_]; [contradiction|].
    destruct (BaseScore lm st (Index lm w)) as [p st']. apply IH.
Qed.

(** C5: a word sequence with an out-of-vocabulary word anywhere in it makes
    [get_log_cond_prob] return [OOV_SCORE], the constant itself and
    nothing computed from the other words, as an ordinary result. *)
Theorem get_log_cond_prob_oov s lm words (bos eos : bool) :
  language_model_ s = Some lm ->
  Exists (fun w => Index lm w = kUNK) words ->
  get_log_cond_prob s words bos eos = Some OOV_SCORE.
Proof.
  intros Hlm Hex. unfold get_log_cond_prob. rewrite Hlm. simpl.
  rewrite score_words_oov by assumption. reflexivity.
Qed.

(** The return happens at the first such word: the words after it play no
    part. *)
Lemma get_log_cond_prob_oov_first s lm before w after (bos eos : bool) :
  language_model_ s = Some lm ->
  Index lm w = kUNK ->
  get_log_cond_prob s (before ++ w :: after) bos eos = Some OOV_SCORE.
Proof.
  intros Hlm Hw. unfold get_log_cond_prob. rewrite Hlm. simpl.
  rewrite score_words_oov; [reflexivity|].
  apply Exists_app. right. constructor. assumption.
Qed.

(** What is returned for words of the vocabulary: the score of the last
    step taken, converted. *)
Lemma get_log_cond_prob_in_vocabulary s lm words (bos eos : bool) :
  language_model_ s = Some lm ->
  Forall (fun w => Index lm w <> kUNK) words ->
  get_log_cond_prob s words bos eos =
    let st0 := if bos then BeginSentenceWrite lm else NullContextWrite lm in
    let indices := (Index lm <$> words) ++ (if eos then [EndSentence lm] else []) in
    Some ((last_step lm indices st0 0%float).1 / NUM_FLT_LOGE)%float.
Proof.
  intros Hlm Hall. unfold get_log_cond_prob. rewrite Hlm. simpl.
  rewrite score_words_in_vocabulary by assumption.
  generalize (if bos then BeginSentenceWrite lm else NullContextWrite lm) as st0.
  generalize 0%float as p0. generalize (Index lm <$> words) as indices.
  induction indices as [|i indices IH]; intros p0 st0.
  - simpl. destruct eos; simpl; [|reflexivity].
    destruct (BaseScore lm st0 (EndSentence lm)). reflexivity.
  - simpl. destruct (BaseScore lm st0 i) as [p st']. apply IH.
Qed.

(** C1, as the code has it: for two words of the vocabulary, with [bos]
    and [eos], the result is the score of the end-of-sentence step alone,
    taken in the state that the two word steps lead to from the
    begin-of-sentence state, divided by [NUM_FLT_LOGE]; the scores of the
    two word steps do not enter the result. *)
Theorem get_log_cond_prob_two_words s lm (w1 w2 : string) :
  language_model_ s = Some lm ->
  Index lm w1 <> kUNK ->
  Index lm w2 <> kUNK ->
  let st1 := (BaseScore lm (BeginSentenceWrite lm) (Index lm w1)).2 in
  let st2 := (BaseScore lm st1 (Index lm w2)).2 in
  get_log_cond_prob s [w1; w2] true true
  = Some ((BaseScore lm st2 (EndSentence lm)).1 / NUM_FLT_LOGE)%float.
Proof.
  intros Hlm Hw1 Hw2. simpl.
  rewrite (get_log_cond_prob_in_vocabulary s lm) by (repeat constructor; assumption).
  simpl.
  destruct (BaseScore lm (BeginSentenceWrite lm) (Index lm w1)) as [p1 st1]. simpl.
  destruct (BaseScore lm st1 (Index lm w2)) as [p2 st2]. simpl.
  destruct (BaseScore lm st2 (EndSentence lm)) as [p3 st3]. reflexivity.
Qed.

(** C6: on the empty sentence the loop runs once, for the window over no
    word with [eos] set and [bos] set when [max_order_] is above one; the
    call returns, and its value is that window's score, added to the
    initial [0.0] and converted once more. *)
Theorem get_sent_log_prob_empty s lm :
  language_model_ s = Some lm ->
  let bos := 1 <? Z.of_nat (max_order_ s) in
  let st0 := if bos then BeginSentenceWrite lm else NullContextWrite lm in
  let window := ((BaseScore lm st0 (EndSentence lm)).1 / NUM_FLT_LOGE)%float in
  get_log_cond_prob s [] bos true = Some window
  /\ get_sent_log_prob s [] = Some ((0 + window) / NUM_FLT_LOGE)%float.
Proof.
  intros Hlm bos st0 window.
  assert (Hw : get_log_cond_prob s [] bos true = Some window).
  { unfold get_log_cond_prob. rewrite Hlm. reflexivity. }
  split; [exact Hw|].
  unfold get_sent_log_prob. simpl.
  change (1 - 0 <? Z.of_nat (max_order_ s)) with bos.
  unfold range. simpl. rewrite Hw. simpl. reflexivity.
Qed.

(** The loop of [get_sent_log_prob] stays inside the vector and ends: the
    call returns for every sentence. *)
Lemma sent_loop_total s lm words : forall fuel win_start win_end score,
  language_model_ s = Some lm ->
  0 <= win_start < win_end ->
  win_end <= Z.of_nat (length words) + 2 ->
  Z.of_nat (length words) + 2 - win_end <= Z.of_nat fuel ->
  is_Some (sent_loop s words fuel win_start win_end score).
Proof.
  induction fuel as [|fuel IH]; intros win_start win_end score Hlm Hw Hend Hfuel.
  - simpl. destruct (Z.leb_spec win_end (Z.of_nat (length words) + 1)); [lia | eauto].
  - simpl. destruct (Z.leb_spec win_end (Z.of_nat (length words) + 1)) as [Hle|]; [|eauto].
    set (eos := win_end =? Z.of_nat (length words) + 1).
    assert (Hr : is_Some (range words win_start (if eos then win_end - 1 else win_end))).
    { unfold range. subst eos.
      destruct (Z.eqb_spec win_end (Z.of_nat (length words) + 1)).
      - replace ((0 <=? win_start) && (win_start <=? win_end - 1)
                 && (win_end - 1 <=? Z.of_nat (length words))) with true; [eauto|].
        symmetry. rewrite !andb_true_iff, !Z.leb_le. lia.
      - replace ((0 <=? win_start) && (win_start <=? win_end)
                 && (win_end <=? Z.of_nat (length words))) with true; [eauto|].
        symmetry. rewrite !andb_true_iff, !Z.leb_le. lia. }
    destruct Hr as [window ->]. simpl.
    assert (Hp : is_Some (get_log_cond_prob s window
                            (win_end - win_start <? Z.of_nat (max_order_ s)) eos)).
    { unfold get_log_cond_prob. rewrite Hlm. simpl.
      destruct (score_words _ _ _ _); eauto. }
    destruct Hp as [p ->]. simpl.
    apply IH; try assumption; try lia.
    destruct (win_end - win_start =? Z.of_nat (max_order_ s)); lia.
Qed.

(** With a language model loaded, [get_sent_log_prob] returns for every
    sentence: the loop ends, and each window it forms lies inside the
    vector of words. *)
Lemma get_sent_log_prob_total s lm words :
  language_model_ s = Some lm -> is_Some (get_sent_log_prob s words).
Proof.
  intros Hlm. unfold get_sent_log_prob.
  destruct (sent_loop_total s lm words (S (length words)) 0 1 0%float) as [r Hr];
    try assumption; try lia.
  rewrite Hr. simpl. eauto.
Qed.

End ScoringFacts.

(* ===================================================================== *)
(** * Properties: scorer.cpp, the n-gram walk *)
(* ===================================================================== *)

(** Induction along the parent chain. *)
Lemma PathTrie_chain_ind (P : PathTrie -> Prop) :
  (forall c, P (mkPathTrie c None)) ->
  (forall c p, P p -> P (mkPathTrie c (Some p))) ->
  forall node, P node.
Proof.
  intros Hend Hstep.
  fix IH 1. intros [c [p|]].
  - apply Hstep. apply IH.
  - apply Hend.
Qed.

Section WalkFacts.

Context `{Engine} `{Constants} `{OpenFst} `{PathTrieOps}.
Implicit Types (s : Scorer) (node stop : PathTrie) (current : option PathTrie).

Lemma step_ok_here node : step_ok node [] node.
Proof.
  split; [lia|]. split; [auto|]. intros c Hc. inversion Hc.
Qed.

Lemma step_ok_single node :
  character node <> -1 -> step_ok node [character node] node.
Proof.
  intros Hc. split; [lia|]. split; [auto|].
  intros c Hin. apply list_elem_of_singleton in Hin as ->.
  split; [assumption|]. destruct node as [c [p|]]; simpl; constructor.
Qed.

Lemma step_ok_child c p output stop :
  c <> -1 -> step_ok p output stop ->
  step_ok (mkPathTrie c (Some p)) (output ++ [c]) stop.
Proof.
  intros Hc (Hd & Hs & Hl). split; [simpl; lia|]. split.
  - intros x Hx. simpl. constructor. auto.
  - intros x Hx. apply elem_of_app in Hx as [Hx|Hx].
    + destruct (Hl x Hx). split; [assumption|]. simpl. constructor. assumption.
    + apply list_elem_of_singleton in Hx as ->. split; [assumption|].
      simpl. constructor.
Qed.

Lemma get_prev_word_ok space_id node :
  step_ok node (get_prev_word node space_id).1 (get_prev_word node space_id).2.
Proof.
  induction node as [c|c p IH] using PathTrie_chain_ind.
  - cbn [get_prev_word character parent].
    destruct (Z.eqb_spec c space_id); [apply step_ok_here|].
    destruct (Z.eqb_spec c (-1)); [apply step_ok_here|].
    apply (step_ok_single (mkPathTrie c None)). assumption.
  - cbn [get_prev_word character parent].
    destruct (Z.eqb_spec c space_id); [apply step_ok_here|].
    destruct (Z.eqb_spec c (-1)); [apply step_ok_here|].
    cbn [orb]. destruct (get_prev_word p space_id) as [output stop].
    apply step_ok_child; assumption.
Qed.

Lemma get_prev_grapheme_ok node :
  step_ok node (get_prev_grapheme node).1 (get_prev_grapheme node).2.
Proof.
  induction node as [c|c p IH] using PathTrie_chain_ind.
  - cbn [get_prev_grapheme character parent].
    destruct (Z.eqb_spec c (-1)); [apply step_ok_here|].
    destruct (byte_is_codepoint_boundary c);
      apply (step_ok_single (mkPathTrie c None)); assumption.
  - cbn [get_prev_grapheme character parent].
    destruct (Z.eqb_spec c (-1)); [apply step_ok_here|].
    destruct (byte_is_codepoint_boundary c).
    + apply (step_ok_single (mkPathTrie c (Some p))). assumption.
    + destruct (get_prev_grapheme p) as [output stop].
      apply step_ok_child; assumption.
Qed.

Lemma step_back_ok s node :
  let r := if is_utf8_mode_ s then get_prev_grapheme node
           else get_prev_word node (SPACE_ID_ s) in
  step_ok node r.1 r.2.
Proof.
  destruct (is_utf8_mode_ s); simpl;
    [apply get_prev_grapheme_ok | apply get_prev_word_ok].
Qed.

Lemma depth_parent stop q : parent stop = Some q -> depth stop = S (depth q).
Proof. destruct stop as [c [p|]]; simpl; congruence. Qed.

Lemma path_labels_parent stop q c :
  parent stop = Some q -> c ∈ path_labels q -> c ∈ path_labels stop.
Proof.
  destruct stop as [c' [p|]]; simpl; intros [= ->] Hc. constructor. assumption.
Qed.

(** The loop appends the strings of the walked units to [ngram]. *)
Lemma ngram_loop_walked_units s n : forall current ngram,
  ngram_loop s n current ngram
  = ngram ++ (LabelsToString (alphabet_ s) <$> walked_units s n current).
Proof.
  induction n as [|n IH]; intros current ngram; simpl.
  - rewrite app_nil_r. reflexivity.
  - destruct current as [node|]; [|rewrite app_nil_r; reflexivity].
    destruct (character node =? -1); [rewrite app_nil_r; reflexivity|].
    destruct (if is_utf8_mode_ s then get_prev_grapheme node
              else get_prev_word node (SPACE_ID_ s)) as [prefix_vec new_node].
    rewrite IH, <- app_assoc. reflexivity.
Qed.

Lemma length_walked_units s n : forall current,
  (length (walked_units s n current) <= n)%nat.
Proof.
  induction n as [|n IH]; intros current; simpl; [lia|].
  destruct current as [node|]; simpl; [|lia].
  destruct (character node =? -1); simpl; [lia|].
  destruct (if is_utf8_mode_ s then get_prev_grapheme node
            else get_prev_word node (SPACE_ID_ s)) as [prefix_vec new_node].
  simpl. specialize (IH (parent new_node)). lia.
Qed.

(** A walk of [n] steps is the first [n] steps of any longer walk. *)
Lemma walked_units_take s n k : forall current,
  walked_units s n current = take n (walked_units s (n + k) current).
Proof.
  induction n as [|n IH]; intros current; simpl; [reflexivity|].
  destruct current as [node|]; simpl; [|reflexivity].
  destruct (character node =? -1); simpl; [reflexivity|].
  destruct (if is_utf8_mode_ s then get_prev_grapheme node
            else get_prev_word node (SPACE_ID_ s)) as [prefix_vec new_node].
  simpl. rewrite <- IH. reflexivity.
Qed.

(** Steps beyond the length of the path find nothing more. *)
Lemma walked_units_exhausted s n k : forall current,
  (from_option (fun node => S (depth node)) 0 current <= n)%nat ->
  walked_units s (n + k) current = walked_units s n current.
Proof.
  induction n as [|n IH]; intros current Hn.
  - destruct current as [node|]; simpl in Hn; [lia|]. destruct k; reflexivity.
  - cbn [walked_units Nat.add]. destruct current as [node|]; [|reflexivity].
    destruct (character node =? -1); [reflexivity|].
    pose proof (step_back_ok s node) as Hok. cbv zeta in Hok.
    destruct (if is_utf8_mode_ s then get_prev_grapheme node
              else get_prev_word node (SPACE_ID_ s)) as [prefix_vec new_node].
    destruct Hok as [Hd _]. cbn [fst snd from_option] in *. f_equal. apply IH.
    destruct (parent new_node) as [q|] eqn:Hq; cbn [from_option]; [|lia].
    apply depth_parent in Hq. lia.
Qed.

Lemma walked_units_history s n prefix :
  walked_units s n prefix = take n (history s prefix).
Proof.
  unfold history. set (d := S (from_option depth 0%nat prefix)).
  destruct (Nat.le_gt_cases n d) as [Hle|Hgt].
  - replace d with (n + (d - n))%nat by lia. apply walked_units_take.
  - replace n with (d + (n - d))%nat at 1 by lia.
    rewrite walked_units_exhausted by (subst d; destruct prefix; simpl; lia).
    rewrite take_ge; [reflexivity|].
    pose proof (length_walked_units s d prefix). lia.
Qed.

(** The labels of the units come from the path and never from its root. *)
Lemma walked_units_labels s n : forall current unit c,
  unit ∈ walked_units s n current -> c ∈ unit ->
  c <> -1 /\ c ∈ from_option path_labels [] current.
Proof.
  induction n as [|n IH]; intros current unit c Hu Hc; cbn [walked_units] in Hu.
  - inversion Hu.
  - destruct current as [node|]; [|inversion Hu].
    destruct (character node =? -1); [inversion Hu|].
    pose proof (step_back_ok s node) as Hok. cbv zeta in Hok.
    destruct (if is_utf8_mode_ s then get_prev_grapheme node
              else get_prev_word node (SPACE_ID_ s)) as [prefix_vec new_node].
    destruct Hok as (_ & Hs & Hl). cbn [fst snd from_option] in *.
    apply elem_of_cons in Hu as [->|Hu]; [apply Hl; assumption|].
    destruct (IH _ _ _ Hu Hc) as [Hne Hin]. split; [assumption|].
    destruct (parent new_node) as [q|] eqn:Hq; cbn [from_option] in Hin.
    + apply Hs. eapply path_labels_parent; eassumption.
    + inversion Hin.
Qed.

(** C4: [make_ngram] returns at most [max_order_] units.  They are the
    strings of the units that the walk from [prefix] towards the root
    finds, oldest first, cut to the [max_order_] newest: as many as the
    path holds when that is fewer (the walk ends at the root or at a null
    node), and never more.  Every label in them is the label of a node of
    the path, and none is the label of the root. *)
Theorem make_ngram_bounded s (prefix : option PathTrie) :
  (length (make_ngram s prefix) <= max_order_ s)%nat
  /\ make_ngram s prefix
     = reverse (LabelsToString (alphabet_ s)
                  <$> take (max_order_ s) (history s prefix))
  /\ length (make_ngram s prefix)
     = Nat.min (max_order_ s) (length (history s prefix))
  /\ (forall n, (S (from_option depth 0%nat prefix) <= n)%nat ->
        walked_units s n prefix = history s prefix)
  /\ (forall unit c, unit ∈ history s prefix -> c ∈ unit ->
        c <> -1 /\ c ∈ from_option path_labels [] prefix).
Proof.
  assert (Hm : make_ngram s prefix
               = reverse (LabelsToString (alphabet_ s)
                            <$> take (max_order_ s) (history s prefix))).
  { unfold make_ngram. rewrite ngram_loop_walked_units, walked_units_history.
    reflexivity. }
  split; [|split; [exact Hm|split; [|split]]].
  - rewrite Hm, length_reverse, length_fmap, length_take. lia.
  - rewrite Hm, length_reverse, length_fmap, length_take. reflexivity.
  - intros n Hn. rewrite walked_units_history. apply take_ge.
    unfold history.
    pose proof (length_walked_units s (S (from_option depth 0%nat prefix)) prefix).
    lia.
  - intros unit c. apply walked_units_labels.
Qed.

(** At a null node and at the root there is nothing to return. *)
Lemma make_ngram_at_root s (prefix : option PathTrie) :
  from_option (fun node => character node = -1) True prefix ->
  make_ngram s prefix = [].
Proof.
  intros Hroot. unfold make_ngram. destruct (max_order_ s); [reflexivity|].
  destruct prefix as [node|]; simpl in *; [|reflexivity].
  rewrite Hroot. reflexivity.
Qed.

End WalkFacts.

(* ===================================================================== *)
(** * Properties: scorer.cpp, the package written after the LM binary *)
(* ===================================================================== *)

(** A read that finds its bytes replaces the destination. *)
Lemma read_app (n : nat) (dst buf rest : list byte) :
  length buf = n -> length dst = n -> read n dst (buf ++ rest) = (buf, rest).
Proof.
  intros <- Hdst. unfold read. rewrite take_app_length, drop_app_length.
  rewrite drop_ge by (rewrite length_app; lia). rewrite app_nil_r. reflexivity.
Qed.

(** A read from a stream that has ended leaves the destination alone. *)
Lemma read_nil (n : nat) (dst : list byte) : read n dst [] = (dst, []).
Proof. unfold read. rewrite take_nil, drop_nil. reflexivity. Qed.

(** A read gives as many bytes as the destination has. *)
Lemma length_read (n : nat) (dst fin : list byte) :
  length dst = n -> length (read n dst fin).1 = n.
Proof.
  intros Hdst. unfold read. cbn [fst].
  rewrite length_app, length_take, length_drop. lia.
Qed.

Lemma double_of_bytes_of_double (bits : Z) :
  double_of_bytes (bytes_of_double bits) = bits mod 2 ^ 64.
Proof. unfold double_of_bytes, bytes_of_double. apply le_combine_split. Qed.

Lemma bool_of_bytes_of_bool (b : bool) : bool_of_bytes (bytes_of_bool b) = b.
Proof. destruct b; reflexivity. Qed.

Lemma int32_of_bytes_of_int32 (v : Z) :
  - 2 ^ 31 <= v < 2 ^ 31 -> int32_of_bytes (bytes_of_int32 v) = v.
Proof.
  intros Hv. unfold int32_of_bytes, bytes_of_int32. rewrite le_combine_split.
  change (2 ^ (Z.of_nat 4 * 8)) with (2 ^ 32).
  destruct (Z.ltb_spec (v mod 2 ^ 32) (2 ^ 31)) as [Hlt|Hge].
  - destruct (Z.neg_nonneg_cases v) as [Hneg|Hpos].
    + rewrite <- (Z.mod_add v 1 (2 ^ 32)) in Hlt by lia.
      rewrite Z.mod_small in Hlt by lia. lia.
    + apply Z.mod_small. lia.
  - destruct (Z.neg_nonneg_cases v) as [Hneg|Hpos].
    + rewrite <- (Z.mod_add v 1 (2 ^ 32)) by lia.
      rewrite Z.mod_small by lia. lia.
    + rewrite Z.mod_small in Hge by lia. lia.
Qed.

Section CodecFacts.

Context `{Engine} `{Constants} `{OpenFst} `{Uninitialised}.
Implicit Types (s : Scorer) (fin rest : list byte).

(** The first two fields decide whether the rest is looked at. *)
Lemma load_trie_header (magic version rest : list byte) s :
  length magic = 4%nat -> length version = 4%nat ->
  load_trie (magic ++ version ++ rest) s =
    if negb (int32_of_bytes magic =? MAGIC) then Some (1, invalid_header, s)
    else if negb (int32_of_bytes version =? FILE_VERSION)
    then Some (1, version_mismatch (int32_of_bytes version), s)
    else
      let '(buf, fin) := read 1 (bytes_of_bool (is_utf8_mode_ s)) rest in
      let s := set_is_utf8_mode s (bool_of_bytes buf) in
      let '(buf, fin) := read 8 (bytes_of_double uninit_alpha) fin in
      let alpha := double_of_bytes buf in
      let '(buf, fin) := read 8 (bytes_of_double uninit_beta) fin in
      let beta := double_of_bytes buf in
      let s := reset_params s (IEEE.double_to_float alpha)
                 (IEEE.double_to_float beta) in
      let s := set_dictionary s (fst_Read fin) in
      Some (0, EmptyString, s).
Proof.
  intros Hm Hv. unfold load_trie.
  rewrite (read_app 4 _ magic) by (assumption || apply length_le_split).
  destruct (negb (int32_of_bytes magic =? MAGIC)); [reflexivity|].
  rewrite (read_app 4 _ version) by (assumption || apply length_le_split).
  reflexivity.
Qed.

(** A stream that does not start with the magic number is refused. *)
Lemma load_trie_bad_magic (magic rest : list byte) s :
  length magic = 4%nat ->
  int32_of_bytes magic <> MAGIC ->
  load_trie (magic ++ rest) s = Some (1, invalid_header, s).
Proof.
  intros Hm Hmagic. unfold load_trie.
  rewrite (read_app 4 _ magic) by (assumption || apply length_le_split).
  apply Z.eqb_neq in Hmagic. rewrite Hmagic. reflexivity.
Qed.

(** C8: a package whose version field is not 6 is refused, whether the
    version is lower or higher: [load_trie] returns 1, leaves the scorer
    as it was and writes the version diagnostic, which advises to update
    the scorer file when the version is lower than 6 and to downgrade it
    (or update DeepSpeech) when it is higher. *)
Theorem load_trie_version_mismatch (magic version rest : list byte) s :
  length magic = 4%nat -> length version = 4%nat ->
  int32_of_bytes magic = MAGIC ->
  int32_of_bytes version <> 6 ->
  load_trie (magic ++ version ++ rest) s
  = Some (1,
          ("Error: Scorer file version mismatch ("
           ++ pretty (int32_of_bytes version) ++ " instead of expected 6). "
           ++ (if (int32_of_bytes version <? 6)%Z then "Update your scorer file."
               else "Downgrade your scorer file or update your version of DeepSpeech.")
           ++ endl)%string,
          s).
Proof.
  intros Hm Hv Hmagic Hversion. rewrite load_trie_header by assumption.
  rewrite Hmagic, Z.eqb_refl. cbn [negb].
  destruct (Z.eqb_spec (int32_of_bytes version) FILE_VERSION) as [|_];
    [contradiction|].
  reflexivity.
Qed.

(** A load that succeeds has read the magic number and version 6. *)
Lemma load_trie_success (magic version rest : list byte) s cerr s' :
  length magic = 4%nat -> length version = 4%nat ->
  load_trie (magic ++ version ++ rest) s = Some (0, cerr, s') ->
  int32_of_bytes magic = MAGIC /\ int32_of_bytes version = FILE_VERSION.
Proof.
  intros Hm Hv. rewrite load_trie_header by assumption.
  destruct (Z.eqb_spec (int32_of_bytes magic) MAGIC); [|discriminate].
  destruct (Z.eqb_spec (int32_of_bytes version) FILE_VERSION); [|discriminate].
  auto.
Qed.

(** What [load_trie] makes of what [save_dictionary] wrote. *)
Lemma load_trie_save_dictionary s s0 d :
  dictionary s = Some d ->
  exists bytes,
    save_dictionary s = Some bytes
    /\ load_trie bytes s0
       = Some (0, EmptyString,
               set_dictionary
                 (reset_params (set_is_utf8_mode s0 (is_utf8_mode_ s))
                    (IEEE.double_to_float (alpha s mod 2 ^ 64))
                    (IEEE.double_to_float (beta s mod 2 ^ 64)))
                 (fst_Read (fst_Write d))).
Proof.
  intros Hd. unfold save_dictionary. rewrite Hd. cbn [mbind option_bind].
  eexists. split; [reflexivity|].
  rewrite load_trie_header by reflexivity.
  change (negb (int32_of_bytes (bytes_of_int32 MAGIC) =? MAGIC)) with false.
  change (negb (int32_of_bytes (bytes_of_int32 FILE_VERSION) =? FILE_VERSION)) with false.
  cbv iota.
  rewrite (read_app 1) by apply length_le_split.
  rewrite (read_app 8) by apply length_le_split.
  rewrite (read_app 8) by apply length_le_split.
  rewrite bool_of_bytes_of_bool, !double_of_bytes_of_double. reflexivity.
Qed.

(** C7: [alpha] and [beta] are written by [reset_params] alone, which
    stores [float]s converted to [double].  For every scorer that holds
    such values and has a dictionary, [save_dictionary] followed by
    [load_trie] on what was written returns 0 and gives back [alpha],
    [beta] and the mode flag bit for bit: the eight bytes of each parameter
    are read back as they were written, and the passage through the
    [float] parameters of [reset_params] changes nothing on them. *)
Theorem save_load_round_trip s s0 d (a b : Z) :
  dictionary s = Some d ->
  0 <= a < 2 ^ 32 -> 0 <= b < 2 ^ 32 ->
  alpha s = IEEE.float_to_double a ->
  beta s = IEEE.float_to_double b ->
  exists bytes s',
    save_dictionary s = Some bytes
    /\ load_trie bytes s0 = Some (0, EmptyString, s')
    /\ alpha s' = alpha s
    /\ beta s' = beta s
    /\ is_utf8_mode_ s' = is_utf8_mode_ s.
Proof.
  intros Hd Ha Hb Halpha Hbeta.
  destruct (float_to_double_single_precision a Ha) as [Hra Hfa].
  destruct (float_to_double_single_precision b Hb) as [Hrb Hfb].
  rewrite <- Halpha in Hra, Hfa. rewrite <- Hbeta in Hrb, Hfb.
  destruct (load_trie_save_dictionary s s0 d Hd) as (bytes & Hsave & Hload).
  exists bytes. eexists. split; [exact Hsave|]. split; [exact Hload|].
  cbn [alpha beta is_utf8_mode_ set_dictionary reset_params set_params
       set_is_utf8_mode].
  rewrite !Z.mod_small by assumption. auto.
Qed.


(** What [reset_params] installs is a [float] converted to [double], a
    single-precision value. *)
Lemma reset_params_single_precision s (a b : Z) :
  0 <= a < 2 ^ 32 -> 0 <= b < 2 ^ 32 ->
  alpha (reset_params s a b) = IEEE.float_to_double a
  /\ beta (reset_params s a b) = IEEE.float_to_double b
  /\ IEEE.single_precision (alpha (reset_params s a b))
  /\ IEEE.single_precision (beta (reset_params s a b)).
Proof.
  intros Ha Hb. cbn [alpha beta reset_params set_params].
  auto using float_to_double_single_precision.
Qed.

(** So every state that got its parameters from [reset_params] is saved
    and loaded without a change to them. *)
Lemma reset_params_save_load s1 s0 d (a b : Z) :
  0 <= a < 2 ^ 32 -> 0 <= b < 2 ^ 32 ->
  dictionary s1 = Some d ->
  let s := reset_params s1 a b in
  exists bytes s',
    save_dictionary s = Some bytes
    /\ load_trie bytes s0 = Some (0, EmptyString, s')
    /\ alpha s' = alpha s
    /\ beta s' = beta s
    /\ is_utf8_mode_ s' = is_utf8_mode_ s.
Proof.
  intros Ha Hb Hd s.
  destruct (reset_params_single_precision s1 a b Ha Hb)
    as (_ & _ & [Hra Hfa] & [Hrb Hfb]).
  destruct (load_trie_save_dictionary s s0 d Hd) as (bytes & Hsave & Hload).
  exists bytes. eexists. split; [exact Hsave|]. split; [exact Hload|].
  cbn [alpha beta is_utf8_mode_ set_dictionary reset_params set_params
       set_is_utf8_mode] in *.
  rewrite !Z.mod_small by assumption. auto.
Qed.

Context `{!Files}.

(** [load_lm] on a file made of an LM binary and a package behind it. *)
Lemma load_lm_appended s0 lm_path (lm_bytes package : list byte) :
  access_R_OK lm_path = true ->
  RecognizeBinary lm_path = true ->
  file_bytes lm_path = lm_bytes ++ package ->
  GetEndOfSearchOffset (LoadVirtual lm_path) = Z.of_nat (length lm_bytes) ->
  package <> [] ->
  load_lm s0 lm_path
  = load_trie package (set_language_model s0 (LoadVirtual lm_path)).
Proof.
  intros Hacc Hrec Hbytes Hoff Hne. unfold load_lm.
  rewrite Hacc, Hrec, Hbytes, Hoff. cbn [negb].
  rewrite Nat2Z.id, drop_app_length, length_app.
  destruct (Z.leb_spec (Z.of_nat (length lm_bytes + length package))
              (Z.of_nat (length lm_bytes))) as [Hle|_]; [|reflexivity].
  destruct package; [contradiction | simpl in Hle; lia].
Qed.

(** The round trip through a file: the package appended to an LM binary,
    then [load_lm] on that file. *)
Lemma save_append_load_lm s s0 d lm_path (lm_bytes file : list byte) :
  dictionary s = Some d ->
  IEEE.single_precision (alpha s) ->
  IEEE.single_precision (beta s) ->
  save_dictionary_file s (Some lm_bytes) true = Some (Some file) ->
  access_R_OK lm_path = true ->
  RecognizeBinary lm_path = true ->
  file_bytes lm_path = file ->
  GetEndOfSearchOffset (LoadVirtual lm_path) = Z.of_nat (length lm_bytes) ->
  exists s',
    load_lm s0 lm_path = Some (0, EmptyString, s')
    /\ alpha s' = alpha s
    /\ beta s' = beta s
    /\ is_utf8_mode_ s' = is_utf8_mode_ s
    /\ language_model_ s' = Some (LoadVirtual lm_path).
Proof.
  intros Hd Ha Hb Hfile Hacc Hrec Hbytes Hoff.
  destruct (load_trie_save_dictionary s
              (set_language_model s0 (LoadVirtual lm_path)) d Hd)
    as (bytes & Hsave & Hload).
  unfold save_dictionary_file in Hfile. rewrite Hsave in Hfile.
  cbn in Hfile. injection Hfile as <-.
  eexists. split.
  - rewrite (load_lm_appended s0 lm_path lm_bytes bytes); try assumption.
    + exact Hload.
    + intros ->. unfold save_dictionary in Hsave. rewrite Hd in Hsave.
      discriminate Hsave.
  - destruct Ha as [Ha Hfa], Hb as [Hb Hfb].
    cbn [alpha beta is_utf8_mode_ language_model_ set_dictionary reset_params
         set_params set_is_utf8_mode set_language_model].
    rewrite !Z.mod_small by assumption. auto.
Qed.

(** C9, as the code has it: each of the five failures is found during the
    load, and each makes [load_lm] return the same number, 1; which of
    them occurred cannot be told from the result.  What differs is the
    diagnostic: none for a file that cannot be read, is not recognised or
    ends with the LM section, the header message for a bad magic number
    and the version message for another version; and the scorer, which is
    untouched by the first two and has the new language model after the
    other three. *)
Theorem load_lm_failure_code s lm_path (e : load_error) :
  fails_with lm_path e ->
  let cerr :=
    match e with
    | InputUnreadable | FormatUnrecognized | TruncatedArtifact => EmptyString
    | BadMagic => invalid_header
    | VersionMismatch => version_mismatch (version_field lm_path)
    end in
  load_lm s lm_path
  = Some (1, cerr,
          match e with
          | InputUnreadable | FormatUnrecognized => s
          | _ => set_language_model s (LoadVirtual lm_path)
          end)
  /\ (cerr = EmptyString <-> e <> BadMagic /\ e <> VersionMismatch).
Proof.
  intros Hfail cerr. subst cerr. split.
  - unfold load_lm.
    destruct Hfail as [Hacc | Hacc Hrec | Hacc Hrec Hsize
                       | Hacc Hrec Hsize Hmagic
                       | Hacc Hrec Hsize Hmagic Hversion];
      rewrite Hacc; cbn [negb]; [reflexivity | rewrite Hrec; cbn [negb] ..].
    + reflexivity.
    + apply Z.leb_le in Hsize. rewrite Hsize. reflexivity.
    + apply Z.leb_gt in Hsize. rewrite Hsize.
      unfold magic_field, trie_section in Hmagic. unfold load_trie.
      destruct (read 4 _ _) as [buf1 fin1]. cbn [fst] in Hmagic.
      apply Z.eqb_neq in Hmagic. rewrite Hmagic. reflexivity.
    + apply Z.leb_gt in Hsize. rewrite Hsize.
      unfold version_field, magic_field, trie_section in *. unfold load_trie.
      destruct (read 4 _ _) as [buf1 fin1]. cbn [fst snd] in *.
      rewrite Hmagic, Z.eqb_refl. cbn [negb].
      destruct (read 4 _ fin1) as [buf2 fin2]. cbn [fst] in *.
      apply Z.eqb_neq in Hversion. rewrite Hversion. reflexivity.
  - destruct e; split; try discriminate; try (intros [? ?]; congruence);
      try (intros _; split; discriminate).
Qed.

End CodecFacts.

(* ===================================================================== *)
(** * The properties at work on the small instance *)
(* ===================================================================== *)

Section ToyFacts.

#[local] Existing Instances Toy.engine Toy.release Toy.openfst Toy.pathtrie Toy.files
  Toy.stack.

Local Open Scope string_scope.

(** Two results that are different [double]s. *)
Ltac different_floats :=
  vm_compute;
  let Heq := fresh "Heq" in
  intros Heq;
  match type of Heq with
  | Some ?a = _ =>
      apply (f_equal (fun r => match r with
                               | Some b => PrimFloat.eqb a b
                               | None => false
                               end)) in Heq;
      vm_compute in Heq; discriminate
  end.

(** C1, as stated, fails: with the table of the small model
    (-1 for "cat" after the sentence start, -2 for "dog" after "cat", -4
    for the sentence end after "dog") the call returns -4 / NUM_FLT_LOGE;
    that is neither the sum of the three steps (-7), nor the sum of the
    two word steps (-3), nor one of these sums converted. *)
Lemma get_log_cond_prob_is_not_a_sum :
  let r := get_log_cond_prob (Toy.scorer false) ["cat"; "dog"] true true in
  r = Some ((-4) / NUM_FLT_LOGE)%float
  /\ r <> Some (summed_score Toy.model ["cat"; "dog"] true true)
  /\ r <> Some (summed_score Toy.model ["cat"; "dog"] true true / NUM_FLT_LOGE)%float
  /\ r <> Some (summed_score Toy.model ["cat"; "dog"] true false)
  /\ r <> Some (summed_score Toy.model ["cat"; "dog"] true false / NUM_FLT_LOGE)%float.
Proof.
  cbv zeta. split; [vm_compute; reflexivity|].
  repeat split; different_floats.
Qed.

Lemma get_log_cond_prob_two_words_witness :
  get_log_cond_prob (Toy.scorer false) ["cat"; "dog"] true true
  = Some ((-4) / NUM_FLT_LOGE)%float.
Proof.
  apply (get_log_cond_prob_two_words (Toy.scorer false) Toy.model "cat" "dog").
  - reflexivity.
  - vm_compute. discriminate.
  - vm_compute. discriminate.
Defined.

Lemma is_scoring_boundary_utf8_witness :
  is_scoring_boundary (Toy.scorer true) (Toy.path [0x61; 0xC3; 0xA9]%Z) 0
  = Returned true.
Proof.
  destruct (is_scoring_boundary_utf8 (Toy.scorer true)
              (Toy.path [0x61; 0xC3; 0xA9]%Z) 0 eq_refl) as [_ Hnode].
  destruct (Hnode ltac:(vm_compute; discriminate) 2%Z Byte.xc3 eq_refl)
    as [Hiff _].
  apply Hiff. reflexivity.
Defined.

(** C3, as stated, fails: in a build with [NDEBUG] a node whose leading
    byte is 0xF8, which is in none of the four classes, gets the answer
    [false] like any node that is not at a boundary. *)
Lemma is_scoring_boundary_invalid_byte_returns :
  distance_to_codepoint_boundary (Toy.path [0xF8; 0x80]%Z) = (2%Z, Byte.xf8)
  /\ expected_byte_count Byte.xf8 = None
  /\ NDEBUG = true
  /\ is_scoring_boundary (Toy.scorer true) (Toy.path [0xF8; 0x80]%Z) 0
     = Returned false.
Proof. repeat split. Qed.

Lemma is_scoring_boundary_invalid_byte_witness :
  @is_scoring_boundary Toy.engine Toy.debug Toy.openfst Toy.pathtrie
    (Toy.scorer true) (Toy.path [0xF8; 0x80]%Z) 0
  = Aborted.
Proof.
  destruct (@is_scoring_boundary_invalid_byte Toy.engine Toy.debug Toy.openfst
              Toy.pathtrie (Toy.scorer true) (Toy.path [0xF8; 0x80]%Z) 0
              2%Z Byte.xf8 eq_refl ltac:(vm_compute; discriminate) eq_refl)
    as [Hinvalid _].
  apply Hinvalid. reflexivity.
Defined.

Lemma get_log_cond_prob_oov_witness :
  get_log_cond_prob (Toy.scorer false) ["cat"; "emu"; "dog"] true true
  = Some (-1000)%float.
Proof.
  change (-1000)%float with (@OOV_SCORE Toy.release).
  apply (get_log_cond_prob_oov (Toy.scorer false) Toy.model).
  - reflexivity.
  - apply Exists_cons_tl, Exists_cons_hd. reflexivity.
Defined.

Lemma get_sent_log_prob_empty_witness :
  get_sent_log_prob (Toy.scorer false) []
  = Some ((0 + (-8) / NUM_FLT_LOGE) / NUM_FLT_LOGE)%float.
Proof.
  apply (get_sent_log_prob_empty (Toy.scorer false) Toy.model). reflexivity.
Defined.

Lemma save_load_round_trip_witness :
  exists bytes s',
    save_dictionary (Toy.scorer true) = Some bytes
    /\ load_trie bytes Toy.blank = Some (0%Z, EmptyString, s')
    /\ alpha s' = alpha (Toy.scorer true)
    /\ beta s' = beta (Toy.scorer true)
    /\ is_utf8_mode_ s' = is_utf8_mode_ (Toy.scorer true).
Proof.
  apply (save_load_round_trip (Toy.scorer true) Toy.blank
           [Byte.x01; Byte.x02; Byte.x03] 0x3F000000 0x3E800000).
  - reflexivity.
  - lia.
  - lia.
  - vm_compute. reflexivity.
  - vm_compute. reflexivity.
Defined.

Lemma load_trie_version_mismatch_witness :
  load_trie (bytes_of_int32 MAGIC ++ bytes_of_int32 5 ++ []) Toy.blank
  = Some (1%Z,
          "Error: Scorer file version mismatch (5 instead of expected 6). Update your scorer file."
          ++ endl,
          Toy.blank).
Proof.
  apply (load_trie_version_mismatch (bytes_of_int32 MAGIC) (bytes_of_int32 5) []
           Toy.blank).
  - reflexivity.
  - reflexivity.
  - reflexivity.
  - vm_compute. discriminate.
Defined.

(** C9, as stated, fails: a file that cannot be read and a file with an
    old version are failures of two different kinds, and [load_lm] returns
    1 for both; so it does for one file of each of the five kinds. *)
Lemma load_lm_codes_coincide :
  (forall e, fails_with (Toy.failing_path e) e)
  /\ (forall e, (fun r => r.1.1) <$> load_lm Toy.blank (Toy.failing_path e)
                = Some 1%Z)
  /\ exists e1 e2,
       e1 <> e2
       /\ (fun r => r.1.1) <$> load_lm Toy.blank (Toy.failing_path e1)
          = (fun r => r.1.1) <$> load_lm Toy.blank (Toy.failing_path e2).
Proof.
  split; [|split].
  - intros [].
    + apply fails_unreadable. reflexivity.
    + apply fails_unrecognized; reflexivity.
    + apply fails_truncated; [reflexivity | reflexivity | vm_compute; discriminate].
    + apply fails_bad_magic; try reflexivity; vm_compute; discriminate.
    + apply fails_version; try reflexivity; vm_compute; discriminate.
  - intros []; vm_compute; reflexivity.
  - exists InputUnreadable, VersionMismatch. split; [discriminate|].
    vm_compute. reflexivity.
Qed.

Lemma load_lm_failure_code_witness :
  let cerr :=
    "Error: Scorer file version mismatch (5 instead of expected 6). Update your scorer file."
    ++ endl in
  load_lm Toy.blank "old.scorer"
  = Some (1%Z, cerr, set_language_model Toy.blank Toy.model)
  /\ (cerr = "" <-> VersionMismatch <> BadMagic /\ VersionMismatch <> VersionMismatch).
Proof.
  refine (load_lm_failure_code Toy.blank "old.scorer" VersionMismatch _).
  apply fails_version; try reflexivity; vm_compute; discriminate.
Defined.

(** The walk on the path "a big cat" with [max_order_] 2, and on a path of
    UTF-8 bytes. *)
Lemma make_ngram_examples :
  make_ngram (Toy.scorer false) (Some (Toy.path (Toy.ascii_labels "a big cat")))
  = ["big"; "cat"]
  /\ make_ngram (Toy.scorer false) (Some (Toy.path (Toy.ascii_labels "cat")))
     = ["cat"]
  /\ make_ngram (Toy.scorer false) (Some Toy.root) = []
  /\ length (make_ngram (Toy.scorer true)
               (Some (Toy.path [0x61; 0xC3; 0xA9; 0x62]%Z))) = 2%nat.
Proof. repeat split. Qed.

End ToyFacts.

(* ===================================================================== *)
(** * More properties: tfmodelstate.cc *)
(* ===================================================================== *)

Section InferenceFacts.

Import TFModelState TFInference.
Context {elt : Type} (zero : elt).
Implicit Types (vec data : list elt).

Lemma fetch_initialised data (i : nat) : fetch (Some <$> data) i = data !! i.
Proof.
  unfold fetch, Tensor. rewrite list_lookup_fmap.
  destruct (data !! i); reflexivity.
Qed.

Lemma push_back_loop_spec data n : forall i vec,
  (i + n <= length data)%nat ->
  push_back_loop (Some <$> data) n i vec = Some (vec ++ take n (drop i data)).
Proof.
  induction n as [|n IH]; intros i vec Hn; cbn [push_back_loop].
  - rewrite take_0, app_nil_r. reflexivity.
  - rewrite fetch_initialised.
    destruct (lookup_lt_is_Some_2 data i) as [v Hv]; [lia|].
    rewrite Hv. cbn [mbind option_bind]. rewrite IH by lia.
    rewrite (drop_S _ _ _ Hv). cbn [take]. rewrite <- app_assoc. reflexivity.
Qed.

Lemma push_back_loop_out_of_range (tensor : @Tensor elt) n : forall i vec,
  (i <= length tensor < i + n)%nat -> push_back_loop tensor n i vec = None.
Proof.
  induction n as [|n IH]; intros i vec Hn; cbn [push_back_loop]; [lia|].
  unfold fetch. destruct (tensor !! i) as [[v|]|] eqn:Hi; try reflexivity.
  cbn [mjoin option_join mbind option_bind]. apply IH.
  apply lookup_lt_Some in Hi. lia.
Qed.

Lemma to_int_small (size : Z) : 0 <= size < 2 ^ 31 -> to_int size = size.
Proof.
  intros Hs. unfold to_int. rewrite Z.mod_small by lia.
  destruct (Z.ltb_spec size (2 ^ 31)); lia.
Qed.

Lemma to_int_le (size : Z) : 0 <= size -> to_int size <= size.
Proof.
  intros Hs. unfold to_int.
  pose proof (Z.mod_le size (2 ^ 32) Hs ltac:(lia)) as Hle.
  destruct (Z.ltb_spec (size mod 2 ^ 32) (2 ^ 31)); lia.
Qed.

(** On a tensor whose cells have all been written, for every count. *)
Lemma copy_tensor_to_vector_initialised data vec (num_elements : Z) :
  copy_tensor_to_vector (Some <$> data) vec num_elements =
    let n := if num_elements =? -1 then to_int (Z.of_nat (length data))
             else num_elements in
    if n <=? Z.of_nat (length data) then Some (vec ++ take (Z.to_nat n) data)
    else None.
Proof.
  unfold copy_tensor_to_vector. rewrite length_fmap. cbv zeta.
  set (n := if num_elements =? -1 then _ else _).
  destruct (Z.leb_spec n (Z.of_nat (length data))) as [Hle|Hgt].
  - rewrite push_back_loop_spec by lia. rewrite drop_0. reflexivity.
  - apply push_back_loop_out_of_range. rewrite length_fmap. lia.
Qed.

(** [copy_tensor_to_vector] appends to the vector and keeps what it held:
    with -1 all elements of the tensor, otherwise the first
    [num_elements], none when that is negative; asking for more elements
    than the tensor has reads past its end.  The tensor has fewer than
    [2^31] elements, so that their number is an [int]. *)
Theorem copy_tensor_to_vector_appends data vec (num_elements : Z) :
  Z.of_nat (length data) < 2 ^ 31 ->
  copy_tensor_to_vector (Some <$> data) vec num_elements =
    if num_elements =? -1 then Some (vec ++ data)
    else if num_elements <=? Z.of_nat (length data)
    then Some (vec ++ take (Z.to_nat num_elements) data)
    else None.
Proof.
  intros Hlen. rewrite copy_tensor_to_vector_initialised. cbv zeta.
  destruct (Z.eqb_spec num_elements (-1)) as [_|_]; [|reflexivity].
  rewrite to_int_small by lia.
  rewrite Z.leb_refl, Nat2Z.id, firstn_all. reflexivity.
Qed.

(** A tensor of [2^31] elements or more, up to [2^32]: its size is
    negative as an [int], and the default count copies nothing. *)
Lemma copy_tensor_to_vector_huge data vec :
  2 ^ 31 <= Z.of_nat (length data) < 2 ^ 32 ->
  copy_tensor_to_vector (Some <$> data) vec (-1) = Some vec.
Proof.
  intros Hlen. rewrite copy_tensor_to_vector_initialised. cbv zeta.
  change (-1 =? -1) with true. cbv iota.
  assert (Hneg : to_int (Z.of_nat (length data)) < 0).
  { unfold to_int. rewrite Z.mod_small by lia.
    destruct (Z.ltb_spec (Z.of_nat (length data)) (2 ^ 31)); lia. }
  destruct (Z.leb_spec (to_int (Z.of_nat (length data)))
              (Z.of_nat (length data))) as [_|]; [|lia].
  rewrite Z2Nat.nonpos by lia. rewrite take_0, app_nil_r. reflexivity.
Qed.

(** The vector given to [tensor_from_vector], padded. *)
Lemma tensor_from_vector_fits vec (num_elements : nat) :
  (length vec <= num_elements)%nat ->
  tensor_from_vector zero vec num_elements
  = Some (Some <$> (vec ++ replicate (num_elements - length vec) zero)).
Proof.
  intros Hlen. unfold tensor_from_vector, allocate.
  pose proof (copy_loop_spec vec (length vec) [] (replicate num_elements None)) as Hc.
  simpl in Hc. rewrite Hc by (rewrite ?length_replicate; lia). clear Hc.
  simpl. rewrite drop_0, firstn_all, drop_replicate.
  pose proof (fill_loop_spec zero (num_elements - length vec) (Some <$> vec)
                (replicate (num_elements - length vec) None)) as Hf.
  rewrite length_fmap in Hf. rewrite Hf by (rewrite length_replicate; lia).
  f_equal. rewrite fmap_app, fmap_replicate.
  rewrite drop_replicate, Nat.sub_diag. simpl. rewrite app_nil_r. reflexivity.
Qed.

(** For a tensor of fewer than [2^31] elements, where the [int] counter
    of the loops cannot overflow, [tensor_from_vector] stays inside the
    buffer exactly when the vector is not longer than the tensor. *)
Theorem tensor_from_vector_defined_iff vec (num_elements : nat) :
  Z.of_nat num_elements < 2 ^ 31 ->
  is_Some (tensor_from_vector zero vec num_elements)
  <-> (length vec <= num_elements)%nat.
Proof.
  intros _. split.
  - intros [t Ht]. destruct (Nat.le_gt_cases (length vec) num_elements) as [|Hlong];
      [assumption|].
    rewrite (tensor_from_vector_too_long zero vec _ Hlong) in Ht. discriminate.
  - intros Hfit. rewrite tensor_from_vector_fits by assumption. eexists; reflexivity.
Qed.

(** A vector put into a tensor and read back: asking for as many elements
    as the vector had gives the vector, asking for all of them gives the
    vector followed by the padding. *)
Theorem tensor_round_trip vec out (num_elements : nat) :
  (length vec <= num_elements)%nat ->
  Z.of_nat num_elements < 2 ^ 31 ->
  (tensor_from_vector zero vec num_elements
     ≫= fun t => copy_tensor_to_vector t out (Z.of_nat (length vec)))
  = Some (out ++ vec)
  /\ (tensor_from_vector zero vec num_elements
        ≫= fun t => copy_tensor_to_vector t out (-1))
     = Some (out ++ vec ++ replicate (num_elements - length vec) zero).
Proof.
  intros Hlen Hint. rewrite tensor_from_vector_fits by assumption.
  cbn [mbind option_bind]. rewrite !copy_tensor_to_vector_initialised.
  cbv zeta. rewrite length_app, length_replicate. split.
  - destruct (Z.eqb_spec (Z.of_nat (length vec)) (-1)) as [|_]; [lia|].
    destruct (Z.leb_spec (Z.of_nat (length vec))
                (Z.of_nat (length vec + (num_elements - length vec)))) as [_|]; [|lia].
    rewrite Nat2Z.id, take_app_length. reflexivity.
  - change (-1 =? -1) with true. cbv iota.
    rewrite to_int_small by lia. rewrite Z.leb_refl, Nat2Z.id.
    rewrite <- (length_replicate (num_elements - length vec) zero) at 1.
    rewrite <- length_app, firstn_all. reflexivity.
Qed.

End InferenceFacts.

Lemma tensor_round_trip_witness :
  (TFModelState.tensor_from_vector 0 [7; 8] 4
     ≫= fun t => TFInference.copy_tensor_to_vector t [1] 2) = Some [1; 7; 8]
  /\ (TFModelState.tensor_from_vector 0 [7; 8] 4
        ≫= fun t => TFInference.copy_tensor_to_vector t [1] (-1))
     = Some [1; 7; 8; 0; 0].
Proof. apply (tensor_round_trip 0 [7; 8] [1] 4); simpl; lia. Defined.

Section SessionFacts.

Import TFModelState TFInference.
Context {elt : Type} (zero : elt) {sess : @Session elt} {consts : Constants}.
Implicit Types (m : ModelState) (vec data : list elt).

Lemma infer_unfold m mfcc n_frames c h logits_output state_c_output state_h_output :
  (length mfcc
   <= BATCH_SIZE * n_steps_ m * (2 * n_context_ m + 1) * n_features_ m)%nat ->
  (length c <= BATCH_SIZE * state_size_ m)%nat ->
  (length h <= BATCH_SIZE * state_size_ m)%nat ->
  infer zero m mfcc n_frames c h logits_output state_c_output state_h_output =
    let '(status, outputs) :=
      Run (infer_feeds zero m mfcc n_frames c h)
          ["logits"; "new_state_c"; "new_state_h"]%string in
    if negb (ok status) then
      Some (session_error status, (logits_output, state_c_output, state_h_output))
    else
      out ← outputs !! 0%nat;
      logits_output ← copy_tensor_to_vector out logits_output
        (to_int (Z.of_nat (n_frames * BATCH_SIZE * (alphabet_size m + 1))));
      out ← outputs !! 1%nat;
      state_c_output ← copy_tensor_to_vector out [] (-1);
      out ← outputs !! 2%nat;
      state_h_output ← copy_tensor_to_vector out [] (-1);
      Some (EmptyString, (logits_output, state_c_output, state_h_output)).
Proof.
  intros Hm Hc Hh. unfold infer.
  rewrite (tensor_from_vector_fits zero mfcc _ Hm),
    (tensor_from_vector_fits zero c _ Hc), (tensor_from_vector_fits zero h _ Hh).
  reflexivity.
Qed.



(** More features than the input tensor of the model has cells make
    [infer] write past the end of that tensor. *)
Theorem infer_input_too_long m mfcc n_frames c h
    logits_output state_c_output state_h_output :
  (BATCH_SIZE * n_steps_ m * (2 * n_context_ m + 1) * n_features_ m
   < length mfcc)%nat ->
  infer zero m mfcc n_frames c h logits_output state_c_output state_h_output
  = None.
Proof.
  intros Hlong. unfold infer.
  rewrite (tensor_from_vector_too_long zero mfcc _ Hlong). reflexivity.
Qed.


End SessionFacts.

(* ===================================================================== *)
(** * More properties: scorer.cpp, loading *)
(* ===================================================================== *)

(** Four bytes that read as a number below [2^31] are the bytes of that
    number. *)
Lemma int32_of_bytes_inv (bs : list byte) (v : Z) :
  length bs = 4%nat -> 0 <= v < 2 ^ 31 ->
  int32_of_bytes bs = v -> bs = bytes_of_int32 v.
Proof.
  intros Hlen Hv Hbs. unfold int32_of_bytes in Hbs. unfold bytes_of_int32.
  destruct (Z.ltb_spec (le_combine bs) (2 ^ 31)) as [Hlt|Hge].
  - rewrite <- Hbs, <- Hlen. symmetry. apply split_le_combine.
  - pose proof (le_combine_bound bs) as Hb. rewrite Hlen in Hb.
    change (2 ^ (8 * Z.of_nat 4)) with (2 ^ 32) in Hb. lia.
Qed.

Section LoadFacts.

Context `{Engine} `{Constants} `{OpenFst} `{Uninitialised}.
Implicit Types (s : Scorer) (fin rest : list byte).

(** [load_trie] returns 0 or 1; a 1 leaves the scorer as it was, and a 0
    changes neither the language model nor the alphabet. *)
Lemma load_trie_frame fin s (e : Z) cerr s' :
  load_trie fin s = Some (e, cerr, s') ->
  (e = 1 /\ s' = s)
  \/ (e = 0
      /\ language_model_ s' = language_model_ s
      /\ max_order_ s' = max_order_ s
      /\ SPACE_ID_ s' = SPACE_ID_ s
      /\ alphabet_ s' = alphabet_ s).
Proof.
  unfold load_trie. intros Hload.
  destruct (read 4 _ fin) as [buf1 fin1].
  destruct (negb (int32_of_bytes buf1 =? MAGIC)).
  { injection Hload as <- _ <-. left. auto. }
  destruct (read 4 _ fin1) as [buf2 fin2].
  destruct (negb (int32_of_bytes buf2 =? FILE_VERSION)).
  { injection Hload as <- _ <-. left. auto. }
  destruct (read 1 _ fin2) as [buf3 fin3].
  destruct (read 8 _ fin3) as [buf4 fin4].
  destruct (read 8 _ fin4) as [buf5 fin5].
  injection Hload as <- _ <-. right. repeat split.
Qed.

(** Writing its own flag back changes nothing in a scorer. *)
Lemma set_is_utf8_mode_same s : set_is_utf8_mode s (is_utf8_mode_ s) = s.
Proof. destruct s. reflexivity. Qed.

(** [load_trie] checks the magic number and the version and nothing else.
    On a stream that holds these two fields it returns 0 exactly when they
    are the magic number and version 6, and then it writes no diagnostic,
    whatever follows.  With 17 bytes or more behind them it installs the
    flag and the two parameters read from them, narrowed to [float], and
    the dictionary the automaton reader makes of the rest, a null pointer
    included.  With nothing behind them it returns 0 all the same: the
    flag stays as it was, the parameters become what the two uninitialised
    locals held, and the automaton reader is given a stream at its end. *)
Theorem load_trie_succeeds_iff (magic version rest : list byte) s (e : Z) cerr s' :
  length magic = 4%nat -> length version = 4%nat ->
  load_trie (magic ++ version ++ rest) s = Some (e, cerr, s') ->
  (e = 0 <-> magic = bytes_of_int32 MAGIC /\ version = bytes_of_int32 FILE_VERSION)
  /\ (e = 0 ->
      cerr = EmptyString
      /\ (forall flag a b tail,
            rest = flag ++ a ++ b ++ tail ->
            length flag = 1%nat -> length a = 8%nat -> length b = 8%nat ->
            s' = set_dictionary
                   (reset_params (set_is_utf8_mode s (bool_of_bytes flag))
                      (IEEE.double_to_float (double_of_bytes a))
                      (IEEE.double_to_float (double_of_bytes b)))
                   (fst_Read tail))
      /\ (rest = [] ->
            s' = set_dictionary
                   (reset_params s
                      (IEEE.double_to_float (uninit_alpha mod 2 ^ 64))
                      (IEEE.double_to_float (uninit_beta mod 2 ^ 64)))
                   (fst_Read []))).
Proof.
  intros Hm Hv. rewrite load_trie_header by assumption.
  destruct (Z.eqb_spec (int32_of_bytes magic) MAGIC) as [Hmagic|Hmagic];
    cbn [negb].
  2:{ intros [= <- _ _]. split; [|discriminate].
      split; [discriminate|]. intros [-> _]. contradiction Hmagic. reflexivity. }
  destruct (Z.eqb_spec (int32_of_bytes version) FILE_VERSION) as [Hversion|Hversion];
    cbn [negb].
  2:{ intros [= <- _ _]. split; [|discriminate].
      split; [discriminate|]. intros [_ ->]. contradiction Hversion. reflexivity. }
  intros Hload. split.
  { assert (He : e = 0).
    { destruct (read 1 _ rest) as [buf3 fin3].
      destruct (read 8 _ fin3) as [buf4 fin4].
      destruct (read 8 _ fin4) as [buf5 fin5].
      injection Hload as <- _ _. reflexivity. }
    split; [|intros _; exact He]. intros _. split.
    - apply int32_of_bytes_inv; [assumption | vm_compute; split; congruence
                                | assumption].
    - apply int32_of_bytes_inv; [assumption | vm_compute; split; congruence
                                | assumption]. }
  intros _. split; [|split].
  - destruct (read 1 _ rest) as [buf3 fin3].
    destruct (read 8 _ fin3) as [buf4 fin4].
    destruct (read 8 _ fin4) as [buf5 fin5].
    injection Hload as _ <- _. reflexivity.
  - intros flag a b tail -> Hf Ha Hb.
    rewrite (read_app 1) in Hload by (assumption || apply length_le_split).
    rewrite (read_app 8) in Hload by (assumption || apply length_le_split).
    rewrite (read_app 8) in Hload by (assumption || apply length_le_split).
    injection Hload as _ _ <-. reflexivity.
  - intros ->. rewrite !read_nil in Hload. injection Hload as _ _ <-.
    rewrite bool_of_bytes_of_bool, set_is_utf8_mode_same.
    rewrite !double_of_bytes_of_double. reflexivity.
Qed.

End LoadFacts.

Section LoadLmFacts.

Context `{Engine} `{Constants} `{OpenFst} `{!Files} `{Uninitialised}.
Implicit Types (s : Scorer).

(** [load_lm] returns 0 or 1 and never touches the alphabet or the space
    label. *)
Lemma load_lm_frame s lm_path (e : Z) cerr s' :
  load_lm s lm_path = Some (e, cerr, s') ->
  (e = 0 \/ e = 1)
  /\ SPACE_ID_ s' = SPACE_ID_ s
  /\ alphabet_ s' = alphabet_ s.
Proof.
  unfold load_lm. intros Hload.
  destruct (negb (access_R_OK lm_path)); [injection Hload as <- _ <-; auto|].
  destruct (negb (RecognizeBinary lm_path)); [injection Hload as <- _ <-; auto|].
  destruct (_ <=? _); [injection Hload as <- _ <-; auto|].
  apply load_trie_frame in Hload as [[-> ->] | (-> & _ & _ & -> & ->)]; auto.
Qed.

(** A load that fails leaves the hyperparameters, the mode flag and the
    dictionary as they were.  When the file could be read and KenLM
    recognised it, the language model and [max_order_] have been replaced
    all the same: a truncated package, a bad magic number or a version
    mismatch is found only after the LM has been loaded.  Otherwise the
    scorer is untouched. *)
Theorem load_lm_failure_state s lm_path cerr s' :
  load_lm s lm_path = Some (1, cerr, s') ->
  alpha s' = alpha s /\ beta s' = beta s
  /\ is_utf8_mode_ s' = is_utf8_mode_ s
  /\ dictionary s' = dictionary s
  /\ if access_R_OK lm_path && RecognizeBinary lm_path
     then language_model_ s' = Some (LoadVirtual lm_path)
          /\ max_order_ s' = Order (LoadVirtual lm_path)
     else s' = s.
Proof.
  unfold load_lm. intros Hload.
  destruct (access_R_OK lm_path); cbn [negb andb] in *;
    [|injection Hload as _ <-; auto].
  destruct (RecognizeBinary lm_path); cbn [negb] in *;
    [|injection Hload as _ <-; auto].
  destruct (_ <=? _); [injection Hload as _ <-; repeat split|].
  apply load_trie_frame in Hload as [[_ ->] | [Hzero _]];
    [repeat split | discriminate Hzero].
Qed.

End LoadLmFacts.

(* ===================================================================== *)
(** * More properties: scorer.cpp, the alphabet and the dictionary *)
(* ===================================================================== *)

Section SetupFacts.

Context `{Engine} `{Constants} `{OpenFst} `{!Files} `{AlphabetOps} `{Tokens}
        `{!FstBuild} `{Uninitialised}.
Implicit Types (x : ScorerState) (a : Alphabet) (char_map : gmap string Z).

(** A string that no label of the range has keeps its entry. *)
Lemma char_map_loop_other a n : forall i char_map key,
  (forall j, i <= j < i + Z.of_nat n -> StringFromLabel a j <> key) ->
  char_map_loop a n i char_map !! key = char_map !! key.
Proof.
  induction n as [|n IH]; intros i char_map key Hnone; cbn [char_map_loop].
  - reflexivity.
  - rewrite IH by (intros j Hj; apply Hnone; lia).
    apply lookup_insert_ne. apply Hnone. lia.
Qed.

(** The last label with a given string decides its entry. *)
Lemma char_map_loop_last a n : forall i char_map label,
  i <= label < i + Z.of_nat n ->
  (forall j, label < j < i + Z.of_nat n ->
             StringFromLabel a j <> StringFromLabel a label) ->
  char_map_loop a n i char_map !! StringFromLabel a label = Some (label + 1).
Proof.
  induction n as [|n IH]; intros i char_map label Hlabel Hlast;
    cbn [char_map_loop]; [lia|].
  destruct (Z.eq_dec label i) as [->|Hne].
  - rewrite char_map_loop_other by (intros j Hj; apply Hlast; lia).
    apply lookup_insert_eq.
  - apply IH; [lia|]. intros j Hj. apply Hlast. lia.
Qed.

(** Every entry is the one of its last label, or was there before. *)
Lemma char_map_loop_entries a n : forall i char_map key v,
  char_map_loop a n i char_map !! key = Some v ->
  char_map !! key = Some v
  \/ (i <= v - 1 < i + Z.of_nat n /\ StringFromLabel a (v - 1) = key).
Proof.
  induction n as [|n IH]; intros i char_map key v Hv; cbn [char_map_loop] in Hv.
  - left. assumption.
  - apply IH in Hv as [Hv | [Hrange Hkey]].
    + destruct (decide (StringFromLabel a i = key)) as [Heq|Hne].
      * rewrite <- Heq, lookup_insert_eq in Hv. injection Hv as <-.
        right. replace (i + 1 - 1) with i by lia. split; [lia | assumption].
      * rewrite lookup_insert_ne in Hv by assumption. left. assumption.
    + right. split; [lia | assumption].
Qed.

(** [setup_char_map] builds the map anew: whatever it held before, every
    entry afterwards maps the string of a label of the alphabet to that
    label plus one, so that no value is 0, the initial state of the
    automaton, and the space label is the one of the alphabet. *)
Theorem setup_char_map_entries x key v :
  let a := alphabet_ (scorer x) in
  char_map_ (setup_char_map x) !! key = Some v ->
  1 <= v <= Z.of_nat (GetSize a)
  /\ StringFromLabel a (v - 1) = key
  /\ SPACE_ID_ (scorer (setup_char_map x)) = GetSpaceLabel a.
Proof.
  intros a Hv. subst a. cbn [setup_char_map char_map_ scorer] in Hv.
  apply char_map_loop_entries in Hv as [Hv | [Hrange Hkey]].
  - rewrite lookup_empty in Hv. discriminate.
  - repeat split; [lia | lia | assumption].
Qed.

(** The string of a label is mapped to the label plus one, unless a later
    label has the same string, which then takes the entry. *)
Theorem setup_char_map_lookup x label :
  let a := alphabet_ (scorer x) in
  0 <= label < Z.of_nat (GetSize a) ->
  (forall j, label < j < Z.of_nat (GetSize a) ->
             StringFromLabel a j <> StringFromLabel a label) ->
  char_map_ (setup_char_map x) !! StringFromLabel a label = Some (label + 1).
Proof.
  intros a Hlabel Hlast. subst a. cbn [setup_char_map char_map_ scorer].
  apply char_map_loop_last; [lia|]. intros j Hj. apply Hlast. lia.
Qed.

(** [init] with an alphabet installs it, with its space label and its
    character map, whether the load of the language model that follows
    succeeds or fails. *)
Theorem init_installs_alphabet x lm_path alphabet (e : Z) cerr x' :
  init x lm_path alphabet = Some (e, cerr, x') ->
  (e = 0 \/ e = 1)
  /\ alphabet_ (scorer x') = alphabet
  /\ SPACE_ID_ (scorer x') = GetSpaceLabel alphabet
  /\ char_map_ x' = char_map_loop alphabet (GetSize alphabet) 0 ∅.
Proof.
  unfold init. intros Hinit.
  destruct (load_lm _ lm_path) as [[[e0 cerr0] s0]|] eqn:Hload; [|discriminate].
  cbn [mbind option_bind] in Hinit. injection Hinit as <- _ <-.
  apply load_lm_frame in Hload as (He & Hspace & Halpha).
  cbn [scorer char_map_]. rewrite Hspace, Halpha. repeat split. assumption.
Qed.

(** When the alphabet configuration cannot be read, [init] returns the
    error of the alphabet and goes no further: no file of the language
    model is looked at, and the space label and the character map stay
    those of the alphabet before. *)
Theorem init_from_config_alphabet_error x lm_path config (err : Z) a :
  Alphabet_init (alphabet_ (scorer x)) config = (err, a) ->
  err <> 0 ->
  init_from_config x lm_path config
  = Some (err, EmptyString,
          {| scorer := set_alphabet_ (scorer x) a; char_map_ := char_map_ x |}).
Proof.
  intros Hinit Herr. unfold init_from_config. rewrite Hinit.
  apply Z.eqb_neq in Herr. rewrite Herr. reflexivity.
Qed.

(** The reserved words make no difference to the loop. *)
Lemma add_words_reserved x vocabulary : forall dictionary,
  add_words x vocabulary dictionary
  = add_words x (filter (fun w => reserved w = false) vocabulary) dictionary.
Proof.
  induction vocabulary as [|word rest IH]; intros dictionary; [reflexivity|].
  cbn [add_words]. rewrite IH. unfold reserved at 2.
  destruct (String.eqb word START_TOKEN) eqn:Hs;
    [rewrite filter_cons_False; [reflexivity | unfold reserved; rewrite Hs; discriminate]|].
  destruct (String.eqb word UNK_TOKEN) eqn:Hu;
    [rewrite filter_cons_False; [reflexivity | unfold reserved; rewrite Hs, Hu; discriminate]|].
  destruct (String.eqb word END_TOKEN) eqn:He;
    [rewrite filter_cons_False; [reflexivity | unfold reserved; rewrite Hs, Hu, He; discriminate]|].
  rewrite filter_cons_True by (unfold reserved; rewrite Hs, Hu, He; reflexivity).
  cbn [add_words negb andb]. rewrite Hs, Hu, He. reflexivity.
Qed.

(** [fill_dictionary] skips the three reserved words wherever they stand
    in the vocabulary, and as often as they occur: the dictionary built is
    the one built from the vocabulary without them. *)
Theorem fill_dictionary_reserved x vocabulary :
  fill_dictionary x vocabulary
  = fill_dictionary x (filter (fun w => reserved w = false) vocabulary).
Proof. unfold fill_dictionary. rewrite add_words_reserved. reflexivity. Qed.

End SetupFacts.

(* ===================================================================== *)
(** * More properties: scorer.cpp, boundaries and scores *)
(* ===================================================================== *)

Section MoreBoundaryFacts.

Context `{Engine} `{Constants} `{OpenFst} `{PathTrieOps}.
Implicit Types (s : Scorer) (prefix : PathTrie).

(** The only way for [is_scoring_boundary] not to return: UTF-8 mode, a
    node other than the root, a leading byte in none of the four classes,
    and assertions compiled in. *)
Theorem is_scoring_boundary_aborts_iff s prefix new_label :
  is_scoring_boundary s prefix new_label = Aborted
  <-> is_utf8_mode_ s = true
      /\ character prefix <> -1
      /\ expected_byte_count (distance_to_codepoint_boundary prefix).2 = None
      /\ NDEBUG = false.
Proof.
  unfold is_scoring_boundary. rewrite <- needed_bytes_expected.
  destruct (is_utf8_mode_ s); [|split; [discriminate | intros [? _]; discriminate]].
  destruct (Z.eqb_spec (character prefix) (-1)) as [Hroot|Hnode].
  { split; [discriminate | intros (_ & Hne & _); contradiction]. }
  destruct (distance_to_codepoint_boundary prefix) as [d b]. cbn [snd].
  destruct (needed_bytes b) as [n|].
  { split; [discriminate | intros (_ & _ & Hnone & _); discriminate]. }
  destruct NDEBUG.
  - split; [discriminate | intros (_ & _ & _ & Hdebug); discriminate].
  - split; [auto | reflexivity].
Qed.

(** In word mode the node plays no part, and the label is compared with
    the space label as a [size_t]: a space label that is negative is
    compared as that label plus [2^64]. *)
Theorem is_scoring_boundary_word_mode s prefix new_label :
  is_utf8_mode_ s = false ->
  - 2 ^ 31 <= SPACE_ID_ s < 2 ^ 31 ->
  0 <= new_label < 2 ^ 64 ->
  is_scoring_boundary s prefix new_label
  = Returned (bool_decide
                (new_label = if SPACE_ID_ s <? 0 then 2 ^ 64 + SPACE_ID_ s
                             else SPACE_ID_ s)).
Proof.
  intros Hu Hspace Hlabel. unfold is_scoring_boundary. rewrite Hu. f_equal.
  assert (Hmod : SPACE_ID_ s mod 2 ^ 64
                 = if SPACE_ID_ s <? 0 then 2 ^ 64 + SPACE_ID_ s else SPACE_ID_ s).
  { destruct (Z.ltb_spec (SPACE_ID_ s) 0).
    - rewrite <- (Z.mod_add _ 1) by lia.
      replace (SPACE_ID_ s + 1 * 2 ^ 64) with (2 ^ 64 + SPACE_ID_ s) by lia.
      apply Z.mod_small. lia.
    - apply Z.mod_small. lia. }
  rewrite Hmod.
  destruct (Z.eqb_spec new_label
              (if SPACE_ID_ s <? 0 then 2 ^ 64 + SPACE_ID_ s else SPACE_ID_ s));
    [rewrite bool_decide_eq_true_2 | rewrite bool_decide_eq_false_2];
    auto.
Qed.

End MoreBoundaryFacts.

Section WindowFacts.

Context `{Engine} `{Constants} `{OpenFst}.
Implicit Types (s : Scorer) (words : list string).

Lemma range_nat words (from to : nat) :
  (from <= to <= length words)%nat ->
  range words (Z.of_nat from) (Z.of_nat to)
  = Some (take (to - from) (drop from words)).
Proof.
  intros Hr. unfold range.
  replace ((0 <=? Z.of_nat from) && (Z.of_nat from <=? Z.of_nat to)
           && (Z.of_nat to <=? Z.of_nat (length words))) with true
    by (symmetry; rewrite !andb_true_iff, !Z.leb_le; lia).
  rewrite Nat2Z.id. do 2 f_equal. lia.
Qed.

Lemma sent_loop_windows s words : forall fuel (j : nat) score,
  (1 <= j)%nat -> (j + fuel = length words + 2)%nat ->
  sent_loop s words fuel (Z.of_nat (window_start (max_order_ s) j))
    (Z.of_nat j) score
  = terms ← mapM (window_score s words) (seq j fuel);
    Some (fold_left PrimFloat.add terms score).
Proof.
  induction fuel as [|fuel IH]; intros j score Hj Hfuel; cbn [sent_loop].
  - destruct (Z.leb_spec (Z.of_nat j) (Z.of_nat (length words) + 1)); [lia|].
    reflexivity.
  - destruct (Z.leb_spec (Z.of_nat j) (Z.of_nat (length words) + 1)) as [_|]; [|lia].
    set (k := max_order_ s).
    assert (Hbos : (Z.of_nat j - Z.of_nat (window_start k j) <? Z.of_nat k)
                   = window_bos k j).
    { unfold window_bos, window_start. destruct k as [|k'].
      - rewrite bool_decide_eq_false_2 by lia. apply Z.ltb_ge. lia.
      - destruct (Z.ltb_spec (Z.of_nat j - Z.of_nat (j - S k')) (Z.of_nat (S k')));
          [rewrite bool_decide_eq_true_2 | rewrite bool_decide_eq_false_2];
          auto; lia. }
    assert (Heos : (Z.of_nat j =? Z.of_nat (length words) + 1)
                   = window_eos (length words) j).
    { unfold window_eos.
      destruct (Z.eqb_spec (Z.of_nat j) (Z.of_nat (length words) + 1));
        [rewrite bool_decide_eq_true_2 | rewrite bool_decide_eq_false_2];
        auto; lia. }
    rewrite Hbos, Heos.
    assert (Hto : (if window_eos (length words) j then Z.of_nat j - 1
                   else Z.of_nat j) = Z.of_nat (window_end (length words) j)).
    { rewrite <- Heos. unfold window_end.
      destruct (Z.eqb_spec (Z.of_nat j) (Z.of_nat (length words) + 1)); lia. }
    rewrite Hto, range_nat.
    2:{ unfold window_start, window_end. destruct k; lia. }
    cbn [mbind option_bind seq mapM].
    change (get_log_cond_prob s _ _ _) with (window_score s words j).
    destruct (window_score s words j) as [p|]; [|reflexivity].
    cbn [mbind option_bind].
    assert (Hnext : (if Z.of_nat j - Z.of_nat (window_start k j) =? Z.of_nat k
                     then Z.of_nat (window_start k j) + 1
                     else Z.of_nat (window_start k j))
                    = Z.of_nat (window_start k (S j))).
    { unfold window_start. destruct k as [|k'].
      - destruct (Z.eqb_spec (Z.of_nat j - Z.of_nat 0) (Z.of_nat 0)); lia.
      - destruct (Z.eqb_spec (Z.of_nat j - Z.of_nat (j - S k')) (Z.of_nat (S k')));
          lia. }
    rewrite Hnext. replace (Z.of_nat j + 1) with (Z.of_nat (S j)) by lia.
    rewrite IH by lia.
    destruct (mapM (window_score s words) (seq (S j) fuel)) as [terms|];
      reflexivity.
Qed.

(** [get_sent_log_prob] is the sum of one score per window, for the
    windows [j = 1 .. N+1] of a sentence of [N] words: window [j] covers
    the words from [j - max_order_] (from the first word while [j] is
    smaller) up to word [j], the last one only up to the last word with the
    end-of-sentence flag set, and has the begin-of-sentence flag set while
    [j < max_order_].  The scores are added from the left to [0.0], a
    window with an out-of-vocabulary word counting [OOV_SCORE], and the sum
    is divided by [NUM_FLT_LOGE]. *)
Theorem get_sent_log_prob_windows s words :
  get_sent_log_prob s words
  = terms ← mapM (window_score s words) (seq 1 (S (length words)));
    Some (fold_left PrimFloat.add terms 0 / NUM_FLT_LOGE)%float.
Proof.
  unfold get_sent_log_prob.
  pose proof (sent_loop_windows s words (S (length words)) 1 0%float) as Hloop.
  replace (Z.of_nat (window_start (max_order_ s) 1)) with 0 in Hloop
    by (unfold window_start; destruct (max_order_ s); lia).
  change (Z.of_nat 1) with 1 in Hloop. rewrite Hloop by lia.
  destruct (mapM (window_score s words) (seq 1 (S (length words)))); reflexivity.
Qed.

End WindowFacts.

(* ===================================================================== *)
(** * More properties: scorer.cpp, what the walk reconstructs *)
(* ===================================================================== *)

Lemma descend_snoc (node : PathTrie) (labels : list Z) (c : Z) :
  descend node (labels ++ [c]) = mkPathTrie c (Some (descend node labels)).
Proof. unfold descend. rewrite fold_left_app. reflexivity. Qed.

Lemma descend_app (node : PathTrie) (l1 l2 : list Z) :
  descend node (l1 ++ l2) = descend (descend node l1) l2.
Proof. unfold descend. apply fold_left_app. Qed.

Lemma sentence_labels_snoc (space_id : Z) (words : list (list Z)) (w : list Z) :
  words <> [] ->
  sentence_labels space_id (words ++ [w])
  = sentence_labels space_id words ++ space_id :: w.
Proof.
  induction words as [|w1 rest IH]; intros Hne; [contradiction|].
  destruct rest as [|w2 rest]; [reflexivity|].
  change (sentence_labels space_id ((w1 :: w2 :: rest) ++ [w]))
    with (w1 ++ space_id :: sentence_labels space_id ((w2 :: rest) ++ [w])).
  rewrite IH by discriminate.
  change (sentence_labels space_id (w1 :: w2 :: rest))
    with (w1 ++ space_id :: sentence_labels space_id (w2 :: rest)).
  rewrite <- app_assoc. reflexivity.
Qed.

Section ReconstructionFacts.

Context `{Engine} `{Constants} `{OpenFst} `{PathTrieOps}.
Implicit Types (s : Scorer) (node base : PathTrie) (w : list Z).

(** A higher order only adds older units in front: the n-gram of a lower
    order is the end of the n-gram of a higher one. *)
Theorem make_ngram_order_monotone s (k k' : nat) (prefix : option PathTrie) :
  (k <= k')%nat ->
  make_ngram (with_max_order s k) prefix
    `suffix_of` make_ngram (with_max_order s k') prefix.
Proof.
  intros Hk. unfold make_ngram. rewrite !ngram_loop_walked_units.
  cbn [max_order_ with_max_order alphabet_ app].
  apply suffix_prefix_reverse. rewrite !reverse_involutive.
  assert (Hsame : forall n current,
            walked_units (with_max_order s k) n current
            = walked_units (with_max_order s k') n current).
  { induction n as [|n IH]; intros current; [reflexivity|].
    cbn [walked_units is_utf8_mode_ SPACE_ID_ with_max_order].
    destruct current as [node|]; [|reflexivity].
    destruct (character node =? -1); [reflexivity|].
    destruct (if is_utf8_mode_ s then get_prev_grapheme node
              else get_prev_word node (SPACE_ID_ s)) as [prefix_vec new_node].
    rewrite IH. reflexivity. }
  rewrite Hsame.
  rewrite (walked_units_take _ k (k' - k)).
  replace (k + (k' - k))%nat with k' by lia.
  set (units := walked_units _ k' prefix).
  exists (LabelsToString (alphabet_ s) <$> drop k units).
  rewrite <- fmap_app, take_drop. reflexivity.
Qed.

(** ** Word mode *)

Lemma character_descend base w c : character (descend base (w ++ [c])) = c.
Proof. rewrite descend_snoc. reflexivity. Qed.

Lemma get_prev_word_descend (space_id : Z) w : forall base,
  Forall (fun c => c <> space_id /\ c <> -1) w ->
  character base = space_id \/ character base = -1 ->
  get_prev_word (descend base w) space_id = (w, base).
Proof.
  induction w as [|c w IH] using rev_ind; intros base Hw Hbase.
  - destruct base as [cb pb]. cbn [descend fold_left get_prev_word character] in *.
    destruct Hbase as [-> | ->].
    + rewrite Z.eqb_refl. reflexivity.
    + rewrite Z.eqb_refl, orb_true_r. reflexivity.
  - apply Forall_app in Hw as [Hw Hc]. apply Forall_singleton in Hc as [Hc1 Hc2].
    rewrite descend_snoc. cbn [get_prev_word character parent].
    apply Z.eqb_neq in Hc1, Hc2. rewrite Hc1, Hc2. cbn [orb].
    rewrite IH by assumption. reflexivity.
Qed.

Lemma walked_units_sentence s (words : list (list Z)) :
  is_utf8_mode_ s = false ->
  SPACE_ID_ s <> -1 ->
  Forall (well_formed_word (SPACE_ID_ s)) words ->
  forall n,
    walked_units s n
      (Some (descend trie_root (sentence_labels (SPACE_ID_ s) words)))
    = take n (reverse words).
Proof.
  intros Hu Hsp. induction words as [|w words IH] using rev_ind; intros Hall n.
  - destruct n; reflexivity.
  - apply Forall_app in Hall as [Hall Hw].
    apply Forall_singleton in Hw as [Hne Hw].
    rewrite reverse_snoc. destruct n as [|n]; [reflexivity|].
    destruct w as [|c w _] using rev_ind; [contradiction|].
    set (base := match words with
                 | [] => trie_root
                 | _ => mkPathTrie (SPACE_ID_ s)
                          (Some (descend trie_root
                                   (sentence_labels (SPACE_ID_ s) words)))
                 end).
    assert (Hpath : descend trie_root
                      (sentence_labels (SPACE_ID_ s) (words ++ [w ++ [c]]))
                    = descend base (w ++ [c])).
    { subst base. destruct words as [|w1 rest]; [reflexivity|].
      rewrite sentence_labels_snoc by discriminate.
      rewrite descend_app.
      change (SPACE_ID_ s :: w ++ [c]) with ([SPACE_ID_ s] ++ (w ++ [c])).
      rewrite descend_app. reflexivity. }
    rewrite Hpath. cbn [walked_units]. rewrite character_descend.
    apply Forall_app in Hw as Hw'. destruct Hw' as [_ Hc].
    apply Forall_singleton in Hc as [_ Hc]. apply Z.eqb_neq in Hc. rewrite Hc.
    rewrite Hu, get_prev_word_descend; [|assumption|].
    2:{ subst base. destruct words; [right | left]; reflexivity. }
    cbn [take]. f_equal. subst base. destruct words as [|w1 rest].
    + destruct n; reflexivity.
    + cbn [parent]. apply IH. assumption.
Qed.

(** In word mode, on the path of a sentence (words without space labels,
    each two separated by one space label), [make_ngram] returns the
    strings of the last [max_order_] words, in the order of the sentence,
    and of all words when there are fewer. *)
Theorem make_ngram_words s (words : list (list Z)) :
  is_utf8_mode_ s = false ->
  SPACE_ID_ s <> -1 ->
  Forall (well_formed_word (SPACE_ID_ s)) words ->
  make_ngram s (Some (descend trie_root (sentence_labels (SPACE_ID_ s) words)))
  = LabelsToString (alphabet_ s) <$> drop (length words - max_order_ s) words.
Proof.
  intros Hu Hsp Hall. unfold make_ngram.
  rewrite ngram_loop_walked_units, walked_units_sentence by assumption.
  cbn [app]. rewrite <- fmap_reverse, take_reverse, reverse_involutive.
  reflexivity.
Qed.

(** ** UTF-8 mode *)

Lemma get_prev_grapheme_descend (lead : Z) rest : forall base,
  byte_is_codepoint_boundary lead = true -> lead <> -1 ->
  Forall (fun c => byte_is_codepoint_boundary c = false /\ c <> -1) rest ->
  get_prev_grapheme (descend base (lead :: rest))
  = (lead :: rest, mkPathTrie lead (Some base)).
Proof.
  induction rest as [|c rest IH] using rev_ind; intros base Hlead Hne Hrest.
  - cbn [descend fold_left get_prev_grapheme character].
    apply Z.eqb_neq in Hne. rewrite Hne, Hlead. reflexivity.
  - apply Forall_app in Hrest as [Hrest Hc].
    apply Forall_singleton in Hc as [Hc1 Hc2].
    change (lead :: rest ++ [c]) with ((lead :: rest) ++ [c]).
    rewrite descend_snoc. cbn [get_prev_grapheme character parent].
    apply Z.eqb_neq in Hc2. rewrite Hc2, Hc1.
    rewrite IH by assumption. reflexivity.
Qed.

Lemma walked_units_codepoints s (codepoints : list (list Z)) :
  is_utf8_mode_ s = true ->
  Forall well_formed_codepoint codepoints ->
  forall n,
    walked_units s n (Some (descend trie_root (concat codepoints)))
    = take n (reverse codepoints).
Proof.
  intros Hu. induction codepoints as [|cp cps IH] using rev_ind; intros Hall n.
  - destruct n; reflexivity.
  - apply Forall_app in Hall as [Hall Hcp]. rewrite Forall_singleton in Hcp.
    rewrite reverse_snoc. destruct n as [|n]; [reflexivity|].
    rewrite concat_app, descend_app. cbn [concat]. rewrite app_nil_r.
    destruct cp as [|lead rest]; [destruct Hcp|].
    destruct Hcp as (Hlead & Hne & Hrest).
    cbn [walked_units].
    assert (Hchar : character (descend (descend trie_root (concat cps))
                                 (lead :: rest)) <> -1).
    { destruct rest as [|c rest _] using rev_ind; [exact Hne|].
      change (lead :: rest ++ [c]) with ((lead :: rest) ++ [c]).
      rewrite character_descend.
      apply Forall_app in Hrest as [_ Hc]. rewrite Forall_singleton in Hc. apply Hc. }
    apply Z.eqb_neq in Hchar. rewrite Hchar, Hu.
    rewrite get_prev_grapheme_descend by assumption.
    cbn [take parent]. f_equal. apply IH. assumption.
Qed.

(** In UTF-8 mode, on the path of a sequence of codepoints, [make_ngram]
    returns the strings of the last [max_order_] codepoints, in order, and
    of all of them when there are fewer. *)
Theorem make_ngram_codepoints s (codepoints : list (list Z)) :
  is_utf8_mode_ s = true ->
  Forall well_formed_codepoint codepoints ->
  make_ngram s (Some (descend trie_root (concat codepoints)))
  = LabelsToString (alphabet_ s)
      <$> drop (length codepoints - max_order_ s) codepoints.
Proof.
  intros Hu Hall. unfold make_ngram.
  rewrite ngram_loop_walked_units, walked_units_codepoints by assumption.
  cbn [app]. rewrite <- fmap_reverse, take_reverse, reverse_involutive.
  reflexivity.
Qed.

End ReconstructionFacts.

(* ===================================================================== *)
(** * More properties on the small model *)
(* ===================================================================== *)

Section MoreToyFacts.

#[local] Existing Instances Toy.engine Toy.openfst Toy.pathtrie Toy.files
  Toy.stack ToySetup.alphabet_ops.

Local Open Scope string_scope.
Import TFModelState TFInference.

(** A property of every element of a list that is written out. *)
Ltac each_cell tac :=
  repeat (apply List.Forall_cons; [tac|]); apply List.Forall_nil.

Lemma tensor_from_vector_defined_iff_witness :
  is_Some (tensor_from_vector 0 [7; 8; 9] 2) <-> (length [7; 8; 9] <= 2)%nat.
Proof. apply (tensor_from_vector_defined_iff 0 [7; 8; 9] 2). simpl. lia. Defined.

Lemma load_trie_succeeds_iff_witness :
  let s' := set_dictionary
              (reset_params Toy.blank
                 (IEEE.double_to_float (uninit_alpha mod 2 ^ 64))
                 (IEEE.double_to_float (uninit_beta mod 2 ^ 64)))
              (fst_Read []) in
  (0 = 0 <-> bytes_of_int32 MAGIC = bytes_of_int32 MAGIC
             /\ bytes_of_int32 FILE_VERSION = bytes_of_int32 FILE_VERSION)
  /\ (0 = 0 ->
      "" = ""
      /\ (forall flag a b tail : list byte,
            [] = (flag ++ a ++ b ++ tail)%list ->
            length flag = 1%nat -> length a = 8%nat -> length b = 8%nat ->
            s' = set_dictionary
                   (reset_params (set_is_utf8_mode Toy.blank (bool_of_bytes flag))
                      (IEEE.double_to_float (double_of_bytes a))
                      (IEEE.double_to_float (double_of_bytes b)))
                   (fst_Read tail))
      /\ (([] : list byte) = [] -> s' = s')).
Proof.
  intros s'.
  apply (load_trie_succeeds_iff (bytes_of_int32 MAGIC) (bytes_of_int32 FILE_VERSION)
           [] Toy.blank 0 "" s').
  - reflexivity.
  - reflexivity.
  - vm_compute. reflexivity.
Defined.

Lemma copy_tensor_to_vector_appends_witness :
  copy_tensor_to_vector (Some <$> [7; 8; 9]) [1] 2 = Some [1; 7; 8].
Proof. apply (copy_tensor_to_vector_appends [7; 8; 9] [1] 2). simpl. lia. Defined.



Lemma infer_input_too_long_witness :
  @infer Z 0 ToySession.session ToySession.model (replicate 25 1) 2 [3] [4]
    [10] [11] [12]
  = None.
Proof.
  apply (@infer_input_too_long Z 0 ToySession.session ToySession.model
           (replicate 25 1) 2%nat [3] [4] [10] [11] [12]).
  simpl. lia.
Defined.


Lemma double_to_float_to_double_witness :
  IEEE.double_to_float (IEEE.float_to_double 0x3F000000) = 0x3F000000.
Proof.
  apply (double_to_float_to_double 0x3F000000); [lia | reflexivity].
Defined.

Lemma get_sent_log_prob_total_witness :
  is_Some (@get_sent_log_prob _ Toy.release _ (Toy.scorer false) ["cat"; "dog"]).
Proof.
  apply (@get_sent_log_prob_total _ Toy.release _ (Toy.scorer false) Toy.model
           ["cat"; "dog"]).
  reflexivity.
Defined.

Lemma make_ngram_at_root_witness : make_ngram (Toy.scorer false) (Some Toy.root) = [].
Proof. apply (make_ngram_at_root (Toy.scorer false) (Some Toy.root)). reflexivity. Defined.


Lemma reset_params_save_load_witness :
  exists bytes s',
    save_dictionary (reset_params (Toy.scorer false) 0x3F000000 0x3E800000)
    = Some bytes
    /\ load_trie bytes Toy.blank = Some (0%Z, "", s')
    /\ alpha s' = alpha (reset_params (Toy.scorer false) 0x3F000000 0x3E800000)
    /\ beta s' = beta (reset_params (Toy.scorer false) 0x3F000000 0x3E800000)
    /\ is_utf8_mode_ s'
       = is_utf8_mode_ (reset_params (Toy.scorer false) 0x3F000000 0x3E800000).
Proof.
  apply (reset_params_save_load (Toy.scorer false) Toy.blank
           [Byte.x01; Byte.x02; Byte.x03] 0x3F000000 0x3E800000).
  - lia.
  - lia.
  - reflexivity.
Defined.

Lemma save_append_load_lm_witness :
  exists s',
    load_lm Toy.blank "good.scorer" = Some (0%Z, "", s')
    /\ alpha s' = alpha (Toy.scorer false)
    /\ beta s' = beta (Toy.scorer false)
    /\ is_utf8_mode_ s' = is_utf8_mode_ (Toy.scorer false)
    /\ language_model_ s' = Some (LoadVirtual "good.scorer").
Proof.
  apply (save_append_load_lm (Toy.scorer false) Toy.blank
           [Byte.x01; Byte.x02; Byte.x03] "good.scorer" Toy.lm_binary
           (Toy.lm_binary ++ Toy.package (Toy.scorer false))).
  - reflexivity.
  - split; [cbn; lia | vm_compute; reflexivity].
  - split; [cbn; lia | vm_compute; reflexivity].
  - reflexivity.
  - reflexivity.
  - reflexivity.
  - reflexivity.
  - reflexivity.
Defined.

Lemma load_lm_failure_state_witness :
  let s' := set_language_model Toy.blank Toy.model in
  alpha s' = alpha Toy.blank /\ beta s' = beta Toy.blank
  /\ is_utf8_mode_ s' = is_utf8_mode_ Toy.blank
  /\ dictionary s' = dictionary Toy.blank
  /\ language_model_ s' = Some Toy.model /\ max_order_ s' = Order Toy.model.
Proof.
  intros s'.
  exact (load_lm_failure_state Toy.blank "old.scorer" (version_mismatch 5) s'
           eq_refl).
Defined.

Lemma setup_char_map_entries_witness :
  1 <= 2 <= Z.of_nat (GetSize ToySetup.letters)
  /\ StringFromLabel ToySetup.letters (2 - 1) = "b"
  /\ SPACE_ID_ (scorer (setup_char_map ToySetup.state))
     = GetSpaceLabel ToySetup.letters.
Proof.
  apply (setup_char_map_entries ToySetup.state "b" 2). vm_compute. reflexivity.
Defined.

Lemma setup_char_map_lookup_witness :
  char_map_ (setup_char_map ToySetup.state)
    !! StringFromLabel (alphabet_ (scorer ToySetup.state)) 1
  = Some (1 + 1).
Proof.
  apply (setup_char_map_lookup ToySetup.state 1).
  - cbn. lia.
  - intros j Hj. cbn in Hj. assert (Hj2 : j = 2) by lia. rewrite Hj2.
    cbn. discriminate.
Defined.

Lemma init_installs_alphabet_witness :
  let x' := set_alphabet ToySetup.state ToySetup.letters in
  (1 = 0 \/ 1 = 1)
  /\ alphabet_ (scorer x') = ToySetup.letters
  /\ SPACE_ID_ (scorer x') = GetSpaceLabel ToySetup.letters
  /\ char_map_ x' = char_map_loop ToySetup.letters (GetSize ToySetup.letters) 0 ∅.
Proof.
  intros x'.
  apply (init_installs_alphabet ToySetup.state "missing.scorer" ToySetup.letters
           1 "" x').
  reflexivity.
Defined.

Lemma init_from_config_alphabet_error_witness :
  init_from_config ToySetup.state "lm.binary" "nowhere.txt"
  = Some (1, "", ToySetup.state).
Proof.
  apply (init_from_config_alphabet_error ToySetup.state "lm.binary" "nowhere.txt"
           1 ToySetup.letters).
  - reflexivity.
  - lia.
Defined.

Lemma is_scoring_boundary_word_mode_witness :
  @is_scoring_boundary _ Toy.release _ _ (Toy.scorer false) Toy.root 32
  = Returned true.
Proof.
  apply (@is_scoring_boundary_word_mode _ Toy.release _ _ (Toy.scorer false)
           Toy.root 32).
  - reflexivity.
  - cbn. lia.
  - lia.
Defined.

Lemma make_ngram_order_monotone_witness :
  make_ngram (with_max_order (Toy.scorer false) 1)
    (Some (Toy.path (Toy.ascii_labels "a big cat")))
  `suffix_of`
  make_ngram (with_max_order (Toy.scorer false) 2)
    (Some (Toy.path (Toy.ascii_labels "a big cat"))).
Proof.
  apply (make_ngram_order_monotone (Toy.scorer false) 1 2
           (Some (Toy.path (Toy.ascii_labels "a big cat")))).
  lia.
Defined.

Lemma make_ngram_words_witness :
  make_ngram (Toy.scorer false)
    (Some (descend trie_root (sentence_labels 32 [[97]; [98; 105; 103]; [99]])))
  = ["big"; "c"].
Proof.
  apply (make_ngram_words (Toy.scorer false) [[97]; [98; 105; 103]; [99]]).
  - reflexivity.
  - cbn. lia.
  - each_cell ltac:(split; [discriminate | each_cell ltac:(split; discriminate)]).
Defined.

Lemma make_ngram_codepoints_witness :
  make_ngram (Toy.scorer true)
    (Some (descend trie_root (concat [[0x61]; [0xC3; 0xA9]; [0x62]])))
  = LabelsToString Toy.alphabet <$> [[0xC3; 0xA9]; [0x62]].
Proof.
  apply (make_ngram_codepoints (Toy.scorer true) [[0x61]; [0xC3; 0xA9]; [0x62]]).
  - reflexivity.
  - each_cell ltac:(unfold well_formed_codepoint;
                    split; [reflexivity
                           | split; [discriminate
                                    | each_cell ltac:(split; [reflexivity
                                                             | discriminate])]]).
Defined.

End MoreToyFacts.
